(** * URL-Server-Monitor: the live-update client and the health-check core

    A shallow embedding of the JavaScript sources of the dashboard
    ([services/websocket], [App.js], [components/URLTable.js],
    [components/HealthTimeline.js]) and, for the scheduling core whose
    Python sources are not part of the frontend tree, of the behaviour the
    specification describes.

    Part I holds the definitions, Part II the theorems. *)

From Stdlib Require Import ZArith Lia Sorted.
From Stdlib Require PrimFloat FloatOps SpecFloat FloatAxioms.
From stdpp Require Import gmap strings list.

(* ===================================================================== *)
(** * Part I: definitions                                                  *)
(* ===================================================================== *)

(** ** JavaScript values *)

Module Js.

(** The scalar values that JSON documents and React state carry here:
    the members of the health records and the toggle flags.  Numbers are
    IEEE 754 doubles, as in the language.  Members that are themselves
    objects or arrays do not occur in these records and are left out. *)
Inductive value : Type :=
  | VUndefined
  | VNull
  | VBool (b : bool)
  | VNum (x : PrimFloat.float)
  | VStr (s : string).

(** A plain object: own enumerable string-keyed properties.  A property may
    be present and hold [undefined]. *)
Abbreviation obj := (gmap string value).

(** [o.k]: a missing property reads as [undefined]. *)
Definition get (o : obj) (k : string) : value := default VUndefined (o !! k).

(** ToBoolean. *)
Definition truthy (v : value) : bool :=
  match v with
  | VUndefined | VNull => false
  | VBool b => b
  | VNum x => negb (PrimFloat.is_zero x || PrimFloat.is_nan x)
  | VStr s => negb (String.eqb s "")
  end.

(** [!v] *)
Definition js_not (v : value) : value := VBool (negb (truthy v)).

(** [a || b] *)
Definition js_or (a b : value) : value := if truthy a then a else b.

(** [a === b] on scalars: no coercion; doubles compare as IEEE numbers
    (NaN differs from itself, the two zeros are equal). *)
Definition strict_eq (a b : value) : bool :=
  match a, b with
  | VUndefined, VUndefined => true
  | VNull, VNull => true
  | VBool x, VBool y => Bool.eqb x y
  | VNum x, VNum y => PrimFloat.eqb x y
  | VStr s, VStr t => String.eqb s t
  | _, _ => false
  end.

(** What a [throw] carries. *)
Inductive error : Type :=
  | TypeError (msg : string)
  | Thrown (v : value).

(** How the evaluation of a statement ends. *)
Inductive completion (A : Type) : Type :=
  | Normal (a : A)
  | Abrupt (e : error).
Arguments Normal {A} a.
Arguments Abrupt {A} e.

(** [try { body } catch (e) { handler }] over a threaded state. *)
Definition try_catch {S A : Type}
    (body : S → S * completion A) (handler : error → S → S * completion A)
    (s : S) : S * completion A :=
  match body s with
  | (s', Normal a) => (s', Normal a)
  | (s', Abrupt e) => handler e s'
  end.

(** [arr.forEach(f)]: the elements present when the call starts are visited
    in index order; an exception thrown by [f] ends the loop and leaves
    [forEach]. *)
Fixpoint forEach {S A : Type} (f : A → S → S * completion unit)
    (arr : list A) (s : S) : S * completion unit :=
  match arr with
  | [] => (s, Normal tt)
  | x :: rest =>
      match f x s with
      | (s', Normal _) => forEach f rest s'
      | (s', Abrupt e) => (s', Abrupt e)
      end
  end.

(** [arr.findIndex(p)]: the first index whose element satisfies [p]
    ([None] stands for -1). *)
Fixpoint findIndex {A : Type} (p : A → bool) (arr : list A) : option nat :=
  match arr with
  | [] => None
  | x :: rest => if p x then Some 0 else S <$> findIndex p rest
  end.

(** [arr.find(p)]: the first element that satisfies [p]. *)
Fixpoint find {A : Type} (p : A → bool) (arr : list A) : option A :=
  match arr with
  | [] => None
  | x :: rest => if p x then Some x else find p rest
  end.

(** Doubles from integers (exact below 2^53, rounded to nearest above). *)
Definition float_of_Z (z : Z) : PrimFloat.float :=
  FloatOps.SF2Prim (SpecFloat.binary_normalize FloatOps.prec FloatOps.emax z 0 false).

(** [Math.round(x)]: the integer nearest to [x], the upper one of two that
    are equally near, that is the floor of [x + 1/2] taken exactly on the
    value [num / den] of the double; NaN, the infinities and the zeros are
    returned unchanged, and a negative argument that rounds to zero gives
    the negative zero. *)
Definition Math_round (x : PrimFloat.float) : PrimFloat.float :=
  match FloatOps.Prim2SF x with
  | SpecFloat.S754_finite s m e =>
      let num := ((if s then - Z.pos m else Z.pos m) * 2 ^ Z.max e 0)%Z in
      let den := (2 ^ Z.max (- e) 0)%Z in
      let n := ((2 * num + den) / (2 * den))%Z in
      if (n =? 0)%Z && s then PrimFloat.neg_zero else float_of_Z n
  | _ => x
  end.

End Js.

(** ** services/websocket: [WebSocketService] *)

Module WebSocketService.
Import Js.

(** A function object, identified by its reference: [!==] on callbacks
    compares references. *)
Definition ref := nat.

(** A parsed frame, a JSON object: its [type] and [data] members.  [data]
    is [None] when the document has no [data] member or a null one; a
    scalar [data] reads like the empty object. *)
Record message : Type := Message {
  msg_type : value;
  msg_data : option obj;
}.

(** The fields the constructor sets.  The socket and the timer are kept as
    handles; only [listeners] matters to subscribers. *)
Record t : Type := Service {
  ws : option nat;
  listeners : list ref;
  reconnectInterval : Z;
  reconnectTimer : option nat;
}.

(** [new WebSocketService()] *)
Definition constructor : t :=
  {| ws := None; listeners := []; reconnectInterval := 5000; reconnectTimer := None |}.

(** [this.listeners = ls] *)
Definition set_listeners (ls : list ref) (this : t) : t :=
  {| ws := ws this; listeners := ls;
     reconnectInterval := reconnectInterval this;
     reconnectTimer := reconnectTimer this |}.

(** The closure [subscribe] returns; it captures [callback]. *)
Inductive unsubscribe_fn : Type := Unsubscribe (callback : ref).

(** [subscribe(callback)]: push, and hand back the closure. *)
Definition subscribe (callback : ref) (this : t) : t * unsubscribe_fn :=
  (set_listeners (listeners this ++ [callback]) this, Unsubscribe callback).

(** Calling the returned closure:
    [this.listeners = this.listeners.filter(listener => listener !== callback)]. *)
Definition unsubscribe (u : unsubscribe_fn) (this : t) : t :=
  match u with
  | Unsubscribe callback =>
      set_listeners (filter (λ listener, listener ≠ callback) (listeners this)) this
  end.

(** What the callbacks can reach: the service singleton, the console, and
    the application's own state. *)
Record world (U : Type) : Type := World {
  service : t;
  console : list (string * error);
  app : U;
}.
Arguments World {U} _ _ _.
Arguments service {U} _.
Arguments console {U} _.
Arguments app {U} _.

(** The behaviour of the function objects: calling the function at a
    reference with one argument changes the world and returns or throws. *)
Definition behaviour (U : Type) : Type :=
  ref → message → world U → world U * completion unit.

(** The world together with the record of the calls made so far; the record
    is out of the callbacks' reach. *)
Record machine (U : Type) : Type := Machine {
  mworld : world U;
  calls : list (ref * message);
}.
Arguments Machine {U} _ _.
Arguments mworld {U} _.
Arguments calls {U} _.

(** [callback(data)] *)
Definition invoke {U} (call : behaviour U) (callback : ref) (data : message)
    (m : machine U) : machine U * completion unit :=
  let '(w', c) := call callback data (mworld m) in
  (Machine w' (calls m ++ [(callback, data)]), c).

(** [console.error(label, error)] *)
Definition console_error {U} (label : string) (e : error)
    (m : machine U) : machine U * completion unit :=
  let w := mworld m in
  (Machine (World (service w) (console w ++ [(label, e)]) (app w)) (calls m), Normal tt).

(** [notifyListeners(data)] *)
Definition notifyListeners {U} (call : behaviour U) (data : message)
    (m : machine U) : machine U * completion unit :=
  forEach
    (λ callback,
       try_catch (invoke call callback data)
                 (λ error, console_error "Error in WebSocket listener:" error))
    (listeners (service (mworld m))) m.

(** The operations on the listener array that a program can perform after
    the fact: a further [subscribe], or a call of a closure that an earlier
    [subscribe] returned. *)
Inductive operation : Type :=
  | DoSubscribe (callback : ref)
  | DoUnsubscribe (u : unsubscribe_fn).

(** One such operation on the service. *)
Definition perform (o : operation) (this : t) : t :=
  match o with
  | DoSubscribe callback => (subscribe callback this).1
  | DoUnsubscribe u => unsubscribe u this
  end.

(** [n] calls of [subscribe(callback)] with the same function object. *)
Definition subscribe_times (n : nat) (callback : ref) (this : t) : t :=
  Nat.iter n (λ s, (subscribe callback s).1) this.

(** Two subscribers for the examples: the function at reference 0 always
    throws, every other one counts the frames it was given in the
    application state. *)
Definition failing_and_counting : behaviour nat :=
  λ callback data w,
    if decide (callback = 0)
    then (w, Abrupt (Thrown (VStr "listener failed")))
    else (World (service w) (console w) (S (app w)), Normal tt).

(** A fresh page: the service as constructed, an empty console, no frame
    counted, no call made. *)
Definition fresh : machine nat := Machine (World constructor [] 0) [].

(** The machine's service replaced. *)
Definition with_service {U} (this : t) (m : machine U) : machine U :=
  Machine (World this (console (mworld m)) (app (mworld m))) (calls m).

End WebSocketService.

(** ** App.js: the health-check cache and the socket message handler *)

Module App.
Import Js WebSocketService.

(** The [healthcheckCache] state of the [App] component. *)
Record healthcheckCache : Type := Cache {
  urls : list obj;
  servers : list obj;
  healthStatuses : list obj;
  lastUpdated : value;
  isLoading : value;
}.

(** The object literal both branches of the handler build from
    [message.data]. *)
Definition health_entry (data : obj) : obj :=
  {[ "url_id" := get data "url_id";
     "status" := get data "status";
     "response_time" := get data "response_time";
     "status_code" := get data "status_code";
     "checked_at" := get data "checked_at";
     "error_message" := get data "error_message" ]}.

(** The updater passed to [setHealthcheckCache]; [now] is [new Date()].
    Reading a member of a missing [message.data] throws a TypeError. *)
Definition health_update_updater (now : value) (message : message)
    (prev : healthcheckCache) : completion healthcheckCache :=
  match msg_data message with
  | None => Abrupt (TypeError "Cannot read properties of undefined (reading 'url_id')")
  | Some data =>
      let copy := healthStatuses prev in
      let index := findIndex (λ h, strict_eq (get h "url_id") (get data "url_id")) copy in
      let healthStatuses' :=
        match index with
        | Some i => <[i := health_entry data]> copy
        | None => copy ++ [health_entry data]
        end in
      Normal {| urls := urls prev; servers := servers prev;
                healthStatuses := healthStatuses';
                lastUpdated := now; isLoading := isLoading prev |}
  end.

(** [handleWebSocketMessage(message)], as the transition it causes on the
    cache: messages of another type leave the state alone. *)
Definition handleWebSocketMessage (now : value) (message : message)
    (prev : healthcheckCache) : completion healthcheckCache :=
  if strict_eq (msg_type message) (VStr "health_update")
  then health_update_updater now message prev
  else Normal prev.

(** The property names of the entries the handler writes. *)
Definition health_fields : list string :=
  ["url_id"; "status"; "response_time"; "status_code"; "checked_at"; "error_message"].

(** The array holds at most one entry per [url_id], ids compared with [===]
    as the handler compares them. *)
Definition one_entry_per_url_id (entries : list obj) : Prop :=
  ∀ i j hi hj,
    entries !! i = Some hi → entries !! j = Some hj →
    strict_eq (get hi "url_id") (get hj "url_id") = true → i = j.

(** A [health_update] frame with payload [data]. *)
Definition health_update (data : obj) : message :=
  Message (VStr "health_update") (Some data).

(** The cache of a session that has not loaded anything yet. *)
Definition initial_cache : healthcheckCache :=
  {| urls := []; servers := []; healthStatuses := [];
     lastUpdated := VNull; isLoading := VBool false |}.

(** The handler takes the member [field] of the payload as the identity of
    the monitored target, and the five other members under their own names:
    whatever the frame and the cache, the cache it returns holds an entry
    whose [url_id] is the payload's [field] and whose other properties are
    the payload's. *)
Definition identifies_target_by (field : string) : Prop :=
  ∀ (now : value) (data : obj) (prev : healthcheckCache),
    ∃ next h,
      handleWebSocketMessage now (health_update data) prev = Normal next
      ∧ h ∈ healthStatuses next
      ∧ get h "url_id" = get data field
      ∧ ∀ k, k ∈ ["status"; "response_time"; "status_code"; "checked_at"; "error_message"] →
             get h k = get data k.

(** A payload with the member names of the push-channel description
    ([target_id] names the target). *)
Definition target_id_payload (target : PrimFloat.float) : obj :=
  {[ "target_id" := VNum target;
     "status" := VStr "online";
     "response_time" := VNum (float_of_Z 120);
     "status_code" := VNum (float_of_Z 200);
     "checked_at" := VStr "2025-01-15T10:30:00";
     "error_message" := VNull ]}.

(** The payload of the README's example frame ([url_id] names the target). *)
Definition url_id_payload (target : PrimFloat.float) (status : string) : obj :=
  {[ "url_id" := VNum target;
     "status" := VStr status;
     "response_time" := VNum (float_of_Z 245);
     "status_code" := VNum (float_of_Z 200);
     "checked_at" := VStr "2025-01-15T10:30:00";
     "error_message" := VNull ]}.

End App.

(** ** components/URLTable.js *)

Module URLTable.
Import Js.

(** [getHealthStatus(urlId)] over the [healthStatuses] prop:
    [health?.status || 'offline']. *)
Definition getHealthStatus (healthStatuses : list obj) (urlId : value) : value :=
  let health := find (λ h, strict_eq (get h "url_id") urlId) healthStatuses in
  js_or (match health with Some h => get h "status" | None => VUndefined end)
        (VStr "offline").

(** The [toggleStates] object: property keys are strings. *)
Abbreviation toggleStates := (gmap string value).

(** What the handler does to the outside, in order. *)
Inductive effect : Type :=
  | SetToggleStates (updater : toggleStates → toggleStates)
  | ApiPatch (path : string) (body : obj)
  | OnRefresh
  | ConsoleLog (text : string)
  | ConsoleError (text : string) (e : error)
  | Alert (text : string).

Section Handler.
(** ToString on the values used as URL ids (property keys and template
    literals both go through it). *)
Variable ToString : value → string.

(** The [catch] block. *)
Definition on_error (urlId currentStatus : value) (e : error) : list effect :=
  [ ConsoleError "Error toggling health check:" e;
    SetToggleStates (λ prev, <[ToString urlId := currentStatus]> prev);
    Alert "Failed to toggle health check" ].

(** [handleToggleHealthCheck(urlId, currentStatus)].  [patch] is how the
    awaited PATCH request settles, [onRefresh] whether the prop is given and
    how its promise settles. *)
Definition handleToggleHealthCheck
    (onRefresh : option (completion unit)) (patch : completion unit)
    (urlId currentStatus : value) : list effect :=
  SetToggleStates (λ prev, <[ToString urlId := js_not currentStatus]> prev) ::
  let newStatus := if truthy (js_not currentStatus) then "YES" else "NO" in
  ApiPatch ("/api/urls/" +:+ ToString urlId +:+ "/health-check")
           {[ "status" := VStr newStatus ]} ::
  match patch with
  | Abrupt e => on_error urlId currentStatus e
  | Normal _ =>
      ConsoleLog "Toggle successful" ::
      match onRefresh with
      | None => []
      | Some r =>
          OnRefresh ::
          match r with
          | Normal _ => []
          | Abrupt e => on_error urlId currentStatus e
          end
      end
  end.

(** The checkbox's [onChange]: the handler called with the toggle state the
    row was rendered from. *)
Definition onChange (onRefresh : option (completion unit)) (patch : completion unit)
    (rendered : toggleStates) (url_id : value) : list effect :=
  handleToggleHealthCheck onRefresh patch url_id (get rendered (ToString url_id)).

End Handler.

(** ToString on the ids of the examples, which are strings (on a string it
    is the identity). *)
Definition string_id (v : value) : string :=
  match v with VStr s => s | _ => "" end.

(** React applies the queued updaters of [setToggleStates] in order. *)
Fixpoint apply_updates (effects : list effect) (s : toggleStates) : toggleStates :=
  match effects with
  | [] => s
  | SetToggleStates updater :: rest => apply_updates rest (updater s)
  | _ :: rest => apply_updates rest s
  end.

End URLTable.

(** ** components/HealthTimeline.js *)

Module HealthTimeline.
Import Js.

(** What the component returns. *)
Inductive element : Type :=
  | LoadingText                      (* "Loading..." *)
  | NoData                           (* "No data" *)
  | Timeline (dots : list obj)       (* one dot per check, oldest first *)
             (uptimePercentage : PrimFloat.float)
             (onlineCount totalCount : nat).

(** [h => h.status === 'online'] *)
Definition is_online (h : obj) : bool := strict_eq (get h "status") (VStr "online").

(** [a / b] on array lengths. *)
Definition ratio (a b : nat) : PrimFloat.float :=
  PrimFloat.div (float_of_Z (Z.of_nat a)) (float_of_Z (Z.of_nat b)).

(** The render of [HealthTimeline] from its [loading] and [history] state. *)
Definition render (loading : bool) (history : list obj) : element :=
  if loading then LoadingText
  else if (length history =? 0)%nat then NoData
  else
    let onlineCount := length (List.filter is_online history) in
    let totalCount := length history in
    let uptimePercentage :=
      if (0 <? totalCount)%nat
      then Math_round (PrimFloat.mul (ratio onlineCount totalCount) (float_of_Z 100))
      else float_of_Z 0 in
    Timeline (reverse (take 10 history)) uptimePercentage onlineCount totalCount.

End HealthTimeline.


(** ** The health-check scheduling core

    The scheduler, the probe executor and the result store are the Python
    backend ([backend/]); the frontend tree holds only their consumer.  The
    definitions of this module follow the specification's description of
    that core. *)

Module Scheduler.

(** Modelled from the spec: the opaque id of a MonitoredTarget (the backend's
    target records are absent from the sources). *)
Definition target_id := nat.

(** Modelled from the spec: a wall-clock instant (the backend clock is
    absent from the sources). *)
Definition instant := nat.

(** Modelled from the spec: MonitoredTarget, "opaque id, network
    address/URL, declared check interval, enabled flag" (the backend model
    is absent from the sources). *)
Record MonitoredTarget : Type := Target {
  id : target_id;
  address : string;
  interval : nat;
  enabled : bool;
}.

(** Modelled from the spec: the outcome classification of a CheckResult,
    [online] or [offline] (the probe executor is absent from the sources). *)
Inductive outcome : Type := online | offline.

(** Modelled from the spec: CheckResult, "target id, timestamp, outcome
    classification, latency, response code, error detail", the last three
    present only in the cases the spec names (the backend model is absent
    from the sources). *)
Record CheckResult : Type := Result {
  target : target_id;
  checked_at : instant;
  status : outcome;
  response_time : option nat;
  status_code : option nat;
  error_message : option string;
}.

(** Modelled from the spec: the scheduler with its collaborators' state (the
    backend scheduler, result store and broadcaster are absent from the
    sources).  [outstanding] lists the probes in flight, each with the
    instant of its dispatch; [skipped] is the skip counter; [store] is the
    Result Store, one append-only log per target, oldest first;
    [published] is what was handed to the Broadcaster, oldest first. *)
Record state : Type := State {
  now : instant;
  outstanding : list (target_id * instant);
  skipped : nat;
  store : gmap target_id (list CheckResult);
  published : list CheckResult;
}.

(** Modelled from the spec: the scheduler before its first tick (the backend
    start-up code is absent from the sources). *)
Definition init : state :=
  {| now := 0; outstanding := []; skipped := 0; store := ∅; published := [] |}.

(** Modelled from the spec: "a probe for T is still outstanding" (the
    backend scheduler is absent from the sources). *)
Definition is_outstanding (T : target_id) (s : state) : bool :=
  bool_decide (T ∈ (outstanding s).*1).

(** Modelled from the spec: the dispatch of one target at a tick, "if a
    tick's probe for a target is still running when the next tick fires,
    that target's new probe for this tick is skipped ..., and this skip is
    observable (counted, not silent)"; otherwise one probe is started (the
    backend scheduler is absent from the sources). *)
Definition dispatch (T : target_id) (s : state) : state :=
  if is_outstanding T s
  then {| now := now s; outstanding := outstanding s; skipped := S (skipped s);
          store := store s; published := published s |}
  else {| now := now s; outstanding := outstanding s ++ [(T, now s)];
          skipped := skipped s; store := store s; published := published s |}.

(** Modelled from the spec: "Dispatch one Probe Executor call per target"
    over the fetched targets, in the order of the sequence (the backend
    scheduler is absent from the sources). *)
Definition dispatch_all (targets : list MonitoredTarget) (s : state) : state :=
  foldl (λ s T, dispatch (id T) s) s targets.

(** Modelled from the spec: one tick, "fetch the current enabled target set
    ... Dispatch one Probe Executor call per target"; when the fetch fails
    "the entire tick is skipped" (the backend scheduler is absent from the
    sources).  [fetched] is the result of [listEnabledTargets()]. *)
Definition tick (fetched : option (list MonitoredTarget)) (s : state) : state :=
  match fetched with
  | None => s
  | Some targets => dispatch_all targets s
  end.

(** Modelled from the spec: the Result Store's [append] (the backend store
    is absent from the sources). *)
Definition append (r : CheckResult) (st : gmap target_id (list CheckResult))
    : gmap target_id (list CheckResult) :=
  <[target r := default [] (st !! target r) ++ [r]]> st.

(** Modelled from the spec: the first entry of a list equal to [x] taken
    out (how a completed probe leaves the outstanding ones; the backend
    scheduler is absent from the sources). *)
Fixpoint remove_first (x : target_id * instant) (l : list (target_id * instant))
    : list (target_id * instant) :=
  match l with
  | [] => []
  | y :: rest => if decide (x = y) then rest else y :: remove_first x rest
  end.

(** Modelled from the spec: the completion of the probe dispatched at
    [started] with result [r], "persist the CheckResult (Result Store
    write), then publish it"; a failed write drops the result "for
    persistence purposes but still published live".  The result is of the
    probe's target and is stamped within the probe's lifetime.  [None] when
    no such probe is in flight (the backend scheduler is absent from the
    sources). *)
Definition complete (started : instant) (r : CheckResult) (write_ok : bool)
    (s : state) : option state :=
  if bool_decide ((target r, started) ∈ outstanding s)
     && bool_decide (started ≤ checked_at r ≤ now s)
  then Some {| now := now s;
               outstanding := remove_first (target r, started) (outstanding s);
               skipped := skipped s;
               store := if write_ok then append r (store s) else store s;
               published := published s ++ [r] |}
  else None.

(** Modelled from the spec: what happens to the scheduler (the backend event
    loop is absent from the sources): time passes, the periodic timer
    fires, a probe completes. *)
Inductive event : Type :=
  | Elapse (d : nat)
  | Tick (fetched : option (list MonitoredTarget))
  | Completion (started : instant) (r : CheckResult) (write_ok : bool).

(** Modelled from the spec: one event applied to the scheduler (the backend
    event loop is absent from the sources). *)
Definition step (e : event) (s : state) : option state :=
  match e with
  | Elapse d => Some {| now := now s + d; outstanding := outstanding s;
                        skipped := skipped s; store := store s;
                        published := published s |}
  | Tick fetched => Some (tick fetched s)
  | Completion started r write_ok => complete started r write_ok s
  end.

(** Modelled from the spec: a run of the scheduler from a state (the backend
    event loop is absent from the sources). *)
Fixpoint run (events : list event) (s : state) : option state :=
  match events with
  | [] => Some s
  | e :: rest => s' ← step e s; run rest s'
  end.

(** Modelled from the spec: the states the scheduler can be in (the backend
    event loop is absent from the sources). *)
Definition reachable (s : state) : Prop := ∃ events, run events init = Some s.

(** Modelled from the spec: the log of a target in the Result Store, empty
    when nothing was appended (the backend store is absent from the
    sources). *)
Definition log (T : target_id) (s : state) : list CheckResult :=
  default [] (store s !! T).

(** Modelled from the spec: "at most one outstanding probe per target at a
    time" (the backend scheduler is absent from the sources). *)
Definition no_overlap (s : state) : Prop := NoDup (outstanding s).*1.

(** Modelled from the spec: timestamps "non-decreasing in the order they
    are appended" (the backend store is absent from the sources); the list
    is in append order. *)
Definition non_decreasing (stamps : list instant) : Prop :=
  ∀ i j a b, i ≤ j → stamps !! i = Some a → stamps !! j = Some b → a ≤ b.

(** Modelled from the spec: the facts that hold between two events of the
    scheduler and carry the two invariants of its data model through a run
    (the backend scheduler is absent from the sources): no target has two
    probes in flight; no probe was dispatched in the future; every stored
    result is filed under its target and not stamped in the future; a
    target's stored results are not stamped after the dispatch of its
    probe in flight; and every log is in non-decreasing timestamp order. *)
Record consistent (s : state) : Prop := Consistent {
  cons_no_overlap : no_overlap s;
  cons_dispatched : ∀ T t0, (T, t0) ∈ outstanding s → t0 ≤ now s;
  cons_filed : ∀ T r, r ∈ log T s → target r = T ∧ checked_at r ≤ now s;
  cons_before : ∀ T t0 r, (T, t0) ∈ outstanding s → r ∈ log T s → checked_at r ≤ t0;
  cons_ordered : ∀ T, non_decreasing (checked_at <$> log T s);
}.

(** Modelled from the spec: scenario 5, "target E's previous-tick probe is
    still in flight when the next tick fires" (the backend scheduler is
    absent from the sources): E is dispatched at the first tick, the probe
    outlives the 60 seconds to the second tick, then completes. *)
Definition target_E : MonitoredTarget :=
  {| id := 5; address := "https://e.example/health"; interval := 60; enabled := true |}.

Definition scenario_5 : list event :=
  [ Tick (Some [target_E]); Elapse 60; Tick (Some [target_E]); Elapse 5;
    Completion 0 {| target := 5; checked_at := 65; status := offline;
                    response_time := None; status_code := None;
                    error_message := Some "timeout" |} true ].

(** Modelled from the spec: the scenario continued by a third tick, which
    finds E idle and probes it again, and by that probe's completion (the
    backend scheduler is absent from the sources). *)
Definition scenario_5_continued : list event :=
  scenario_5 ++
  [ Elapse 55; Tick (Some [target_E]); Elapse 1;
    Completion 120 {| target := 5; checked_at := 121; status := online;
                      response_time := Some 120; status_code := Some 200;
                      error_message := None |} true ].

(** Modelled from the spec: the scheduler of scenario 5 when the second tick
    is about to fire (the backend scheduler is absent from the sources). *)
Definition before_second_tick : state :=
  {| now := 60; outstanding := [(5, 0)]; skipped := 0; store := ∅; published := [] |}.

End Scheduler.

(** ** Built-in collections: [Set], [Map], [Array.prototype.sort] *)

Module JsCollections.
Import Js.

(** SameValueZero, the equality of [Set] and [Map] keys: as [===], but NaN
    is the same as NaN. *)
Definition same_value_zero (a b : value) : bool :=
  match a, b with
  | VNum x, VNum y => PrimFloat.is_nan x && PrimFloat.is_nan y || PrimFloat.eqb x y
  | _, _ => strict_eq a b
  end.

(** A value as a [Set] or a [Map] keeps it: the negative zero is stored as
    the positive one. *)
Definition stored (v : value) : value :=
  match v with
  | VNum x => if PrimFloat.is_zero x then VNum PrimFloat.zero else v
  | _ => v
  end.

(** [set.add(x)] for each element of [arr] in turn, on the set whose
    elements in insertion order are [seen]. *)
Fixpoint Set_add_all (seen arr : list value) : list value :=
  match arr with
  | [] => seen
  | x :: rest =>
      Set_add_all (if existsb (same_value_zero x) seen then seen else seen ++ [stored x]) rest
  end.

(** [[...new Set(arr)]]: the first occurrence of each element, in order. *)
Definition Set_spread (arr : list value) : list value := Set_add_all [] arr.

(** A [Map], as its entries in insertion order. *)
Definition Map_get {V : Type} (key : value) (m : list (value * V)) : option V :=
  snd <$> find (λ entry, same_value_zero entry.1 key) m.

(** [map.set(key, v)]: the value of an existing key is replaced where it
    stands, a new key goes to the end. *)
Fixpoint Map_set {V : Type} (key : value) (v : V) (m : list (value * V))
    : list (value * V) :=
  match m with
  | [] => [(stored key, v)]
  | (k, old) :: rest =>
      if same_value_zero k key then (k, v) :: rest else (k, old) :: Map_set key v rest
  end.

(** No two elements of the list are the same value (SameValueZero). *)
Inductive all_distinct : list value → Prop :=
  | distinct_nil : all_distinct []
  | distinct_cons x l :
      (∀ y, y ∈ l → same_value_zero x y = false) →
      all_distinct l → all_distinct (x :: l).

(** *** Strings as sequences of UTF-16 code units

    A JavaScript string is a sequence of 16-bit code units.  The strings
    of this development hold the UTF-8 bytes of the text (so does a string
    literal of this file); [utf16] gives their code units back. *)

(** The bytes of a string. *)
Fixpoint bytes (s : string) : list N :=
  match s with
  | EmptyString => []
  | String c rest => Ascii.N_of_ascii c :: bytes rest
  end.

(** A continuation byte of UTF-8, [10xxxxxx]. *)
Definition is_continuation (b : N) : bool := ((128 <=? b) && (b <? 192))%N.

(** The bits of the code point that the first byte of a sequence holds:
    [0xxxxxxx], [110xxxxx], [1110xxxx] or [11110xxx]. *)
Definition leading_bits (b : N) : N :=
  if (b <? 128)%N then b
  else if (b <? 224)%N then N.land b 31
  else if (b <? 240)%N then N.land b 15
  else N.land b 7.

(** The code points of a sequence of UTF-8 bytes, [cur] being the code
    point under way: a continuation byte adds its six bits to it, any
    other byte ends it and starts the next one. *)
Fixpoint code_points_from (cur : option N) (bs : list N) : list N :=
  match bs with
  | [] => option_list cur
  | b :: rest =>
      if is_continuation b
      then code_points_from (Some (N.lor (N.shiftl (default 0%N cur) 6) (N.land b 63))) rest
      else option_list cur ++ code_points_from (Some (leading_bits b)) rest
  end.

(** The code units of a code point: itself, or from U+10000 on a high and a
    low surrogate. *)
Definition code_units (cp : N) : list N :=
  if (cp <? 65536)%N then [cp]
  else
    let c := (cp - 65536)%N in
    [(55296 + N.shiftr c 10)%N; (56320 + N.land c 1023)%N].

(** The code units of a string. *)
Definition utf16 (s : string) : list N :=
  concat (map code_units (code_points_from None (bytes s))).

(** [u < v] on strings: at the first position where they differ the code
    unit of [u] is the smaller one, or [u] ends there and [v] goes on. *)
Inductive units_lt : list N → list N → Prop :=
  | lt_prefix b v : units_lt [] (b :: v)
  | lt_head a b u v : (a < b)%N → units_lt (a :: u) (b :: v)
  | lt_tail a u v : units_lt u v → units_lt (a :: u) (a :: v).

(** The same comparison, computed. *)
Fixpoint units_ltb (u v : list N) : bool :=
  match u, v with
  | _, [] => false
  | [], _ :: _ => true
  | a :: u', b :: v' =>
      if (a <? b)%N then true else if (b <? a)%N then false else units_ltb u' v'
  end.

Section Sort.
(** ToString on the elements that are sorted. *)
Variable ToString : value → string.

(** The default comparison of [sort] puts [a] after [b] only when the
    string of [b] is less than the string of [a], by code units. *)
Definition sort_le (a b : value) : bool :=
  negb (units_ltb (utf16 (ToString b)) (utf16 (ToString a))).

(** [a] may stand before [b] in a sorted array. *)
Definition in_order (a b : value) : Prop := sort_le a b = true.

(** One element put into a sorted array, before the elements that compare
    equal to it. *)
Fixpoint sort_insert (x : value) (sorted : list value) : list value :=
  match sorted with
  | [] => [x]
  | y :: rest => if sort_le x y then x :: y :: rest else y :: sort_insert x rest
  end.

(** The stable sort of an array by [sort_le]. *)
Fixpoint stable_sort (arr : list value) : list value :=
  match arr with
  | [] => []
  | x :: rest => sort_insert x (stable_sort rest)
  end.

Definition is_undefined (v : value) : bool :=
  match v with VUndefined => true | _ => false end.

(** [arr.sort()] without a comparator: the [undefined] elements go last,
    the others are ordered as strings; the sort is stable. *)
Definition sort (arr : list value) : list value :=
  stable_sort (List.filter (λ v, negb (is_undefined v)) arr)
  ++ List.filter is_undefined arr.

End Sort.
End JsCollections.

(** ** App.js: the loaders and the derived views *)

Module AppViews.
Import Js App JsCollections.

(** [healthcheckCache.urls.filter(url => url.environment === environment)] *)
Definition in_environment (environment : value) (urls : list obj) : list obj :=
  List.filter (λ url, strict_eq (get url "environment") environment) urls.

(** [getFilteredUrls()] from the cache and the two selections. *)
Definition getFilteredUrls (cache : healthcheckCache)
    (activeEnvironment activeCategory : value) : list obj :=
  let filtered := in_environment activeEnvironment (urls cache) in
  if truthy activeCategory
  then List.filter (λ url, strict_eq (get url "project_category") activeCategory) filtered
  else filtered.

(** The object [getUrlsByEnvironment()] returns. *)
Record byEnvironment : Type := ByEnvironment {
  production : list obj;
  development : list obj;
  staging : list obj;
}.

(** [getUrlsByEnvironment()] *)
Definition getUrlsByEnvironment (cache : healthcheckCache) : byEnvironment :=
  {| production := in_environment (VStr "production") (urls cache);
     development := in_environment (VStr "development") (urls cache);
     staging := in_environment (VStr "staging") (urls cache) |}.

(** The environment of the URL is one of the three that have a bucket. *)
Definition has_bucket (url : obj) : bool :=
  strict_eq (get url "environment") (VStr "production")
  || strict_eq (get url "environment") (VStr "development")
  || strict_eq (get url "environment") (VStr "staging").

(** [getCategories()] *)
Definition getCategories (ToString : value → string) (cache : healthcheckCache)
    (activeEnvironment : value) : list value :=
  let envUrls := in_environment activeEnvironment (urls cache) in
  let categories :=
    Set_spread (List.filter truthy (map (λ url, get url "project_category") envUrls)) in
  sort ToString categories.

(** The selections of the page, and [localStorage] (writes to it are taken
    to succeed). *)
Record selection : Type := Selection {
  activeSection : value;
  activeEnvironment : value;
  activeCategory : value;
}.

Abbreviation localStorage := (gmap string string).

(** [localStorage.getItem(key)]: the stored string, or [null]. *)
Definition getItem (key : string) (storage : localStorage) : value :=
  match storage !! key with Some s => VStr s | None => VNull end.

(** The initial values of the three [useState] calls: the saved section and
    environment, or the defaults; no category. *)
Definition initial_selection (storage : localStorage) : selection :=
  {| activeSection := js_or (getItem "activeSection" storage) (VStr "healthcheck");
     activeEnvironment := js_or (getItem "activeEnvironment" storage) (VStr "production");
     activeCategory := VNull |}.

Section Handlers.
(** ToString, as [setItem] applies it to the value it is given. *)
Variable ToString : value → string.

(** [handleSectionChange(section)] *)
Definition handleSectionChange (section : value) (s : selection * localStorage)
    : selection * localStorage :=
  ({| activeSection := section;
      activeEnvironment := activeEnvironment s.1;
      activeCategory := activeCategory s.1 |},
   <["activeSection" := ToString section]> s.2).

(** [handleEnvironmentChange(environment)] *)
Definition handleEnvironmentChange (environment : value) (s : selection * localStorage)
    : selection * localStorage :=
  ({| activeSection := activeSection s.1;
      activeEnvironment := environment;
      activeCategory := VNull |},
   <["activeEnvironment" := ToString environment]> s.2).

(** [handleCategoryChange(category)] *)
Definition handleCategoryChange (category : value) (s : selection * localStorage)
    : selection * localStorage :=
  ({| activeSection := activeSection s.1;
      activeEnvironment := activeEnvironment s.1;
      activeCategory := category |}, s.2).

End Handlers.

(** A run of frames through the socket handler, each with the clock reading
    at its arrival; the first exception ends the run. *)
Fixpoint receive (frames : list (value * WebSocketService.message))
    (cache : healthcheckCache) : completion healthcheckCache :=
  match frames with
  | [] => Normal cache
  | (now, frame) :: rest =>
      match handleWebSocketMessage now frame cache with
      | Normal next => receive rest next
      | Abrupt e => Abrupt e
      end
  end.

End AppViews.

(** ** App.js read together with URLTable.js *)

Module LiveStatus.
Import Js App.

(** The frame is a [health_update] for the URL [urlId]. *)
Definition is_about (urlId : value) (frame : WebSocketService.message) : bool :=
  strict_eq (WebSocketService.msg_type frame) (VStr "health_update")
  && match WebSocketService.msg_data frame with
     | Some data => strict_eq (get data "url_id") urlId
     | None => false
     end.

(** Three frames for the examples: URL 1 goes offline, URL 2 reports, and a
    frame of another type arrives. *)
Definition sample_frames : list (value * WebSocketService.message) :=
  [ (VNull, health_update (url_id_payload (float_of_Z 1) "online"));
    (VNull, health_update (url_id_payload (float_of_Z 1) "offline"));
    (VNull, health_update (url_id_payload (float_of_Z 2) "online"));
    (VNull, WebSocketService.Message (VStr "gpu_update") None) ].

End LiveStatus.

(** ** components/URLTable.js: the toggle states and the rows *)

Module URLTableView.
Import Js URLTable.

(** The status cell of a row. *)
Inductive status_cell : Type :=
  | Badge (status : value)           (* <StatusBadge status=... /> *)
  | DisabledText.                    (* "Disabled" *)

(** The "Last 10 Minutes" cell of a row. *)
Inductive timeline_cell : Type :=
  | TimelineOf (urlId : value)       (* <HealthTimeline urlId=... /> *)
  | NotApplicable.                   (* "N/A" *)

(** What a row shows that depends on the state around it. *)
Record row : Type := Row {
  server_name : value;
  status : status_cell;
  timeline : timeline_cell;
  checked : value;
}.

(** [getServerInfo(serverId)]: [servers.find(s => s.id === serverId) || null],
    [None] standing for [null]. *)
Definition getServerInfo (servers : list obj) (serverId : value) : option obj :=
  find (λ s, strict_eq (get s "id") serverId) servers.

Section View.
Variable ToString : value → string.

(** The property key of a URL in [toggleStates]. *)
Definition key_of (url : obj) : string := ToString (get url "id").

(** The effect on [urls]: [states[url.id] = url.health_check_status === 'YES']
    for each URL in turn, from the empty object. *)
Definition initial_toggles (urls : list obj) : toggleStates :=
  foldl (λ states url,
           <[ToString (get url "id")
               := VBool (strict_eq (get url "health_check_status") (VStr "YES"))]> states)
        ∅ urls.

(** One [<tr>] of the table. *)
Definition render_row (toggles : toggleStates) (healthStatuses servers : list obj)
    (url : obj) : row :=
  let serverInfo := getServerInfo servers (get url "server_id") in
  let isHealthCheckEnabled := get toggles (ToString (get url "id")) in
  {| server_name :=
       js_or (match serverInfo with Some s => get s "server_name" | None => VUndefined end)
             (VStr "N/A");
     status :=
       if truthy isHealthCheckEnabled
       then Badge (getHealthStatus healthStatuses (get url "id"))
       else DisabledText;
     timeline :=
       if truthy isHealthCheckEnabled then TimelineOf (get url "id") else NotApplicable;
     checked := js_or (get toggles (ToString (get url "id"))) (VBool false) |}.

(** The table body, or [None] for the "No URLs Found" placeholder. *)
Definition render (toggles : toggleStates) (healthStatuses servers urls : list obj)
    : option (list row) :=
  if (length urls =? 0)%nat then None
  else Some (map (render_row toggles healthStatuses servers) urls).

End View.

(** Two URLs for the examples, with string ids: the first checked, the
    second not. *)
Definition sample_urls : list obj :=
  [ {[ "id" := VStr "1"; "health_check_status" := VStr "YES"; "server_id" := VStr "s1" ]};
    {[ "id" := VStr "2"; "health_check_status" := VStr "NO"; "server_id" := VStr "s9" ]} ].

End URLTableView.

(** ** components/HealthTimeline.js: loading the history *)

Module HealthTimelineLoader.
Import Js JsCollections HealthTimeline.

(** The state of one mounted [HealthTimeline]: the two [useState] cells and
    the [isMounted] ref. *)
Record component : Type := Component {
  history : list obj;
  loading : bool;
  isMounted : bool;
}.

(** An entry of the module-wide [healthHistoryCache]. *)
Record cached : Type := Cached {
  data : list obj;
  timestamp : PrimFloat.float;
}.

(** The [healthHistoryCache] map, keyed by URL id. *)
Abbreviation healthHistoryCache := (list (value * cached)).

Definition CACHE_DURATION : PrimFloat.float := float_of_Z 30000.

(** The component as [useState([])], [useState(true)] and [useRef(true)]
    make it. *)
Definition mount : component := {| history := []; loading := true; isMounted := true |}.

(** Where [loadHistory] stands when it returns or reaches its [await]. *)
Inductive progress : Type :=
  | Returned (c : component)         (* served from the cache *)
  | Awaiting (c : component).        (* [getHealthHistory(urlId, 10)] was called *)

(** [loadHistory] up to the request; [now] is [Date.now()]. *)
Definition loadHistory_start (now : PrimFloat.float) (urlId : value)
    (cache : healthHistoryCache) (c : component) : progress :=
  match Map_get urlId cache with
  | Some entry =>
      if PrimFloat.ltb (PrimFloat.sub now (timestamp entry)) CACHE_DURATION
      then Returned (if isMounted c
                     then {| history := data entry; loading := false; isMounted := isMounted c |}
                     else c)
      else Awaiting c
  | None =>
      Awaiting (if isMounted c
                then {| history := history c; loading := true; isMounted := isMounted c |}
                else c)
  end.

(** [loadHistory] from the settled request on; [now] is the reading taken
    before the request, [c] the component as it is when the promise
    settles.  The console lines of the [catch] are returned with the state. *)
Definition loadHistory_finish (now : PrimFloat.float) (urlId : value)
    (response : completion (list obj))
    (cache : healthHistoryCache) (c : component)
    : healthHistoryCache * component * list (string * error) :=
  match response with
  | Normal rows =>
      if isMounted c
      then (Map_set urlId {| data := rows; timestamp := now |} cache,
            {| history := rows; loading := false; isMounted := isMounted c |}, [])
      else (cache, c, [])
  | Abrupt e =>
      (cache,
       (if isMounted c
        then {| history := history c; loading := false; isMounted := isMounted c |}
        else c),
       [("Error loading health history:", e)])
  end.

(** What the component shows. *)
Definition show (c : component) : element := render (loading c) (history c).

(** Two readings of the clock for the examples, 29 seconds apart, and two
    cached checks. *)
Definition t0 : PrimFloat.float := float_of_Z 1736937000000.
Definition t1 : PrimFloat.float := float_of_Z 1736937029000.
Definition two_checks : list obj :=
  [ {[ "status" := VStr "online" ]}; {[ "status" := VStr "offline" ]} ].

End HealthTimelineLoader.

(** ** services/websocket: the connection and its reconnection timer *)

Module WebSocketLifecycle.
Import Js WebSocketService.

(** [WebSocket.readyState] *)
Inductive readyState : Type := CONNECTING | OPEN | CLOSING | CLOSED.

(** The browser's side of the page.  [sockets] are the [WebSocket] objects
    that [connect] has made, by handle, each carrying the four handlers
    [connect] sets; [timers] are the pending timeouts with their delays;
    [fresh] is the next handle or timer id (ids are positive integers);
    [REACT_APP_WS_URL] is the build-time variable; [rejects] tells what
    [new WebSocket(url)] throws for a URL, if it throws; [transmitted] are
    the frames handed to [ws.send]; [logged] are the [console.log] lines. *)
Record browser : Type := Browser {
  sockets : gmap nat (string * readyState);
  timers : gmap nat Z;
  fresh : nat;
  REACT_APP_WS_URL : option string;
  rejects : string → option error;
  transmitted : list (nat * string);
  logged : list string;
}.

(** The page: the service with its listeners' world, and the browser. *)
Record page (U : Type) : Type := Page {
  runtime : machine U;
  env : browser;
}.
Arguments Page {U} _ _.
Arguments runtime {U} _.
Arguments env {U} _.

(** The service singleton of the page. *)
Definition this {U} (p : page U) : t := service (mworld (runtime p)).

(** An assignment to fields of [this]. *)
Definition assign {U} (f : t → t) (p : page U) : page U :=
  let m := runtime p in
  let w := mworld m in
  Page (Machine (World (f (service w)) (console w) (app w)) (calls m)) (env p).

Definition set_ws (socket : option nat) (s : t) : t :=
  {| ws := socket; listeners := listeners s;
     reconnectInterval := reconnectInterval s; reconnectTimer := reconnectTimer s |}.

Definition set_reconnectTimer (timer : option nat) (s : t) : t :=
  {| ws := ws s; listeners := listeners s;
     reconnectInterval := reconnectInterval s; reconnectTimer := timer |}.

(** A change of the browser's state. *)
Definition browse {U} (f : browser → browser) (p : page U) : page U :=
  Page (runtime p) (f (env p)).

(** [console.log(text)] *)
Definition console_log {U} (text : string) (p : page U) : page U :=
  browse (λ b, {| sockets := sockets b; timers := timers b; fresh := fresh b;
                  REACT_APP_WS_URL := REACT_APP_WS_URL b; rejects := rejects b;
                  transmitted := transmitted b; logged := logged b ++ [text] |}) p.

(** ToBoolean of [this.reconnectTimer]: [null] and 0 are falsy. *)
Definition timer_set (timer : option nat) : bool :=
  match timer with Some (S _) => true | _ => false end.

(** [setTimeout(callback, delay)]: a new pending timer; its id is returned. *)
Definition setTimeout {U} (delay : Z) (p : page U) : page U * nat :=
  let id := fresh (env p) in
  (browse (λ b, {| sockets := sockets b; timers := <[id := delay]> (timers b);
                   fresh := S id;
                   REACT_APP_WS_URL := REACT_APP_WS_URL b; rejects := rejects b;
                   transmitted := transmitted b; logged := logged b |}) p, id).

(** [clearTimeout(id)] *)
Definition clearTimeout {U} (id : nat) (p : page U) : page U :=
  browse (λ b, {| sockets := sockets b; timers := delete id (timers b);
                  fresh := fresh b;
                  REACT_APP_WS_URL := REACT_APP_WS_URL b; rejects := rejects b;
                  transmitted := transmitted b; logged := logged b |}) p.

(** [reconnect()]: the callback of the timer is [retry] below. *)
Definition reconnect {U} (p : page U) : page U :=
  if timer_set (reconnectTimer (this p)) then p
  else
    let '(p', id) := setTimeout (reconnectInterval (this p)) p in
    assign (set_reconnectTimer (Some id)) p'.

(** [process.env.REACT_APP_WS_URL || 'ws://localhost:8080'], then
    [`${WS_URL}/ws`]. *)
Definition socket_url (b : browser) : string :=
  (match REACT_APP_WS_URL b with
   | Some url => if String.eqb url "" then "ws://localhost:8080" else url
   | None => "ws://localhost:8080"
   end) +:+ "/ws".

(** [connect()]: the new socket starts in CONNECTING and becomes
    [this.ws]; when the constructor throws, the error is logged and a
    reconnection is asked for. *)
Definition connect {U} (p : page U) : page U :=
  let url := socket_url (env p) in
  match rejects (env p) url with
  | None =>
      let id := fresh (env p) in
      assign (set_ws (Some id))
        (browse (λ b, {| sockets := <[id := (url, CONNECTING)]> (sockets b);
                         timers := timers b; fresh := S id;
                         REACT_APP_WS_URL := REACT_APP_WS_URL b; rejects := rejects b;
                         transmitted := transmitted b; logged := logged b |}) p)
  | Some e =>
      reconnect (Page (console_error "Error connecting to WebSocket:" e (runtime p)).1 (env p))
  end.

(** The callback [reconnect] hands to [setTimeout]. *)
Definition retry {U} (p : page U) : page U :=
  connect (console_log "Attempting to reconnect WebSocket..." p).

(** [this.ws.onopen] *)
Definition onopen {U} (p : page U) : page U :=
  let p := console_log "WebSocket connected" p in
  match reconnectTimer (this p) with
  | Some id =>
      if timer_set (Some id)
      then assign (set_reconnectTimer None) (clearTimeout id p)
      else p
  | None => p
  end.

(** [this.ws.onerror] *)
Definition onerror {U} (e : error) (p : page U) : page U :=
  Page (console_error "WebSocket error:" e (runtime p)).1 (env p).

(** [this.ws.onclose] *)
Definition onclose {U} (p : page U) : page U :=
  reconnect (console_log "WebSocket disconnected" p).

(** [socket.close()]: a socket that is connecting or open starts closing. *)
Definition close_socket (id : nat) (b : browser) : browser :=
  {| sockets := match sockets b !! id with
                | Some (url, CONNECTING) | Some (url, OPEN) =>
                    <[id := (url, CLOSING)]> (sockets b)
                | _ => sockets b
                end;
     timers := timers b; fresh := fresh b;
     REACT_APP_WS_URL := REACT_APP_WS_URL b; rejects := rejects b;
     transmitted := transmitted b; logged := logged b |}.

(** [disconnect()] *)
Definition disconnect {U} (p : page U) : page U :=
  let p :=
    match reconnectTimer (this p) with
    | Some id =>
        if timer_set (Some id)
        then assign (set_reconnectTimer None) (clearTimeout id p)
        else p
    | None => p
    end in
  match ws (this p) with
  | Some id => assign (set_ws None) (browse (close_socket id) p)
  | None => p
  end.

Section Frames.
Context {U : Type}.
(** The function objects of the page, [JSON.parse] on the text of a frame
    (it throws on text that is not JSON), and [JSON.stringify]. *)
Variable call : behaviour U.
Variable JSON_parse : string → completion message.
Variable JSON_stringify : message → string.

(** [this.ws.onmessage]: the body of the [try] is the parse followed by
    [notifyListeners]. *)
Definition onmessage (text : string) (m : machine U) : machine U * completion unit :=
  try_catch
    (λ m, match JSON_parse text with
          | Normal data => notifyListeners call data m
          | Abrupt e => (m, Abrupt e)
          end)
    (λ error, console_error "Error parsing WebSocket message:" error)
    m.

(** [send(data)] *)
Definition send (data : message) (p : page U) : page U :=
  match ws (this p) with
  | Some id =>
      match sockets (env p) !! id with
      | Some (_, OPEN) =>
          browse (λ b, {| sockets := sockets b; timers := timers b; fresh := fresh b;
                          REACT_APP_WS_URL := REACT_APP_WS_URL b; rejects := rejects b;
                          transmitted := transmitted b ++ [(id, JSON_stringify data)];
                          logged := logged b |}) p
      | _ => p
      end
  | None => p
  end.

(** What happens on the page: the application calls a method of the
    service, or the browser delivers an event of a socket or fires a
    timer. *)
Inductive event : Type :=
  | Connect
  | Disconnect
  | Send (data : message)
  | Subscribed (callback : ref)
  | Unsubscribed (u : unsubscribe_fn)
  | Opened (socket : nat)
  | Received (socket : nat) (text : string)
  | Errored (socket : nat) (e : error)
  | Closed (socket : nat)
  | Fired (timer : nat).

(** The socket's state after the browser's part of an event. *)
Definition set_state (id : nat) (st : readyState) (b : browser) : browser :=
  {| sockets := match sockets b !! id with
                | Some (url, _) => <[id := (url, st)]> (sockets b)
                | None => sockets b
                end;
     timers := timers b; fresh := fresh b;
     REACT_APP_WS_URL := REACT_APP_WS_URL b; rejects := rejects b;
     transmitted := transmitted b; logged := logged b |}.

Definition state_of (id : nat) (b : browser) : option readyState :=
  snd <$> sockets b !! id.

(** One event.  The browser delivers [open] to a connecting socket,
    [message] to an open one, [error] and [close] to one that is not
    closed yet, and fires pending timers only; [None] for anything else. *)
Definition step (e : event) (p : page U) : option (page U) :=
  match e with
  | Connect => Some (connect p)
  | Disconnect => Some (disconnect p)
  | Send data => Some (send data p)
  | Subscribed callback => Some (assign (λ s, (subscribe callback s).1) p)
  | Unsubscribed u => Some (assign (unsubscribe u) p)
  | Opened id =>
      match state_of id (env p) with
      | Some CONNECTING => Some (onopen (browse (set_state id OPEN) p))
      | _ => None
      end
  | Received id text =>
      match state_of id (env p) with
      | Some OPEN => Some (Page (onmessage text (runtime p)).1 (env p))
      | _ => None
      end
  | Errored id e =>
      match state_of id (env p) with
      | Some CLOSED | None => None
      | Some _ => Some (onerror e p)
      end
  | Closed id =>
      match state_of id (env p) with
      | Some CLOSED | None => None
      | Some _ => Some (onclose (browse (set_state id CLOSED) p))
      end
  | Fired id =>
      match timers (env p) !! id with
      | Some _ =>
          Some (retry (browse (λ b, {| sockets := sockets b;
                                       timers := delete id (timers b);
                                       fresh := fresh b;
                                       REACT_APP_WS_URL := REACT_APP_WS_URL b;
                                       rejects := rejects b;
                                       transmitted := transmitted b;
                                       logged := logged b |}) p))
      | None => None
      end
  end.

(** A run of events. *)
Fixpoint run (events : list event) (p : page U) : option (page U) :=
  match events with
  | [] => Some p
  | e :: rest => p' ← step e p; run rest p'
  end.

(** The event comes from the browser and is not the opening of a socket. *)
Definition passive (e : event) : bool :=
  match e with
  | Received _ _ | Errored _ _ | Closed _ | Fired _ => true
  | _ => false
  end.

End Frames.

(** A page that has just been loaded, with its build-time URL and the
    constructor's verdicts: the service as constructed, the application
    state [u], no socket and no timer yet. *)
Definition loaded {U} (url : option string) (verdict : string → option error) (u : U)
    : page U :=
  Page (Machine (World constructor [] u) [])
       {| sockets := ∅; timers := ∅; fresh := 1; REACT_APP_WS_URL := url;
          rejects := verdict; transmitted := []; logged := [] |}.

(** Every pending timer is the one [this.reconnectTimer] holds, set for the
    5000 ms of [reconnectInterval]; ids are positive. *)
Definition timers_tracked {U} (p : page U) : Prop :=
  0 < fresh (env p)
  ∧ reconnectInterval (this p) = 5000%Z
  ∧ ∀ id delay, timers (env p) !! id = Some delay →
                reconnectTimer (this p) = Some id ∧ 0 < id ∧ delay = 5000%Z.

(** The listeners leave the connection fields of the service alone: a call
    may change the listener array, the console and the application state
    only. *)
Definition keeps_connection {U} (call : behaviour U) : Prop :=
  ∀ callback data w,
    let s' := service (call callback data w).1 in
    ws s' = ws (service w)
    ∧ reconnectTimer s' = reconnectTimer (service w)
    ∧ reconnectInterval s' = reconnectInterval (service w).

(** The parser of the examples: the text "ping" is the frame of type
    "ping", anything else is rejected. *)
Definition ping_parser (text : string) : completion message :=
  if String.eqb text "ping" then Normal (Message (VStr "ping") None)
  else Abrupt (Thrown (VStr "SyntaxError")).

End WebSocketLifecycle.

(** ** services/websocket: scenarios of the connection *)

Module WebSocketScenarios.
Import Js WebSocketService WebSocketLifecycle.

(** No timer is pending although [this.reconnectTimer] still holds an id:
    the timer it names has fired. *)
Definition stalled {U} (p : page U) : Prop :=
  timers (env p) = ∅ ∧ timer_set (reconnectTimer (this p)) = true.

(** The page of the examples once its first socket is open: socket 1 is
    [this.ws], nothing is pending. *)
Definition connected : page nat :=
  Page (Machine (World (set_ws (Some 1) constructor) [] 0) [])
       {| sockets := {[ 1 := ("ws://localhost:8080/ws", OPEN) ]}; timers := ∅;
          fresh := 2; REACT_APP_WS_URL := None; rejects := λ _, None;
          transmitted := []; logged := ["WebSocket connected"] |}.

(** [JSON.stringify] of the examples. *)
Definition show_type (data : message) : string :=
  match msg_type data with VStr s => s | _ => "" end.

End WebSocketScenarios.

(** ** App.js: the loaders and the delete handlers *)

Module AppLoaders.
Import Js App.

(** The calls of [services/api] the handlers make. *)
Inductive request : Type :=
  | GetAllUrls
  | GetAllLatestHealth
  | GetAllServers
  | DeleteUrl (urlId : value)
  | DeleteServer (serverId : value).

(** What a handler does to the outside, in order. *)
Inductive effect : Type :=
  | SetHealthcheckCache (updater : healthcheckCache → healthcheckCache)
  | Call (r : request)
  | ConsoleError (text : string) (e : error)
  | Confirm (text : string)
  | Alert (text : string).

(** [{ ...prev, isLoading: flag }] *)
Definition set_isLoading (flag : bool) (prev : healthcheckCache) : healthcheckCache :=
  {| urls := urls prev; servers := servers prev; healthStatuses := healthStatuses prev;
     lastUpdated := lastUpdated prev; isLoading := VBool flag |}.

(** [loadUrls()]; [now] is the [new Date()] of the updater, [response] how
    [getAllUrls()] settles, with [response.data]. *)
Definition loadUrls (now : value) (response : completion (list obj)) : list effect :=
  SetHealthcheckCache (set_isLoading true) ::
  Call GetAllUrls ::
  match response with
  | Normal data =>
      [ SetHealthcheckCache
          (λ prev, {| urls := data; servers := servers prev;
                      healthStatuses := healthStatuses prev;
                      lastUpdated := now; isLoading := VBool false |}) ]
  | Abrupt e =>
      [ ConsoleError "Error loading URLs:" e;
        SetHealthcheckCache (set_isLoading false) ]
  end.

(** [loadHealthStatuses()] *)
Definition loadHealthStatuses (now : value) (response : completion (list obj))
    : list effect :=
  Call GetAllLatestHealth ::
  match response with
  | Normal data =>
      [ SetHealthcheckCache
          (λ prev, {| urls := urls prev; servers := servers prev;
                      healthStatuses := data;
                      lastUpdated := now; isLoading := isLoading prev |}) ]
  | Abrupt e => [ ConsoleError "Error loading health statuses:" e ]
  end.

(** [loadServers()] *)
Definition loadServers (now : value) (response : completion (list obj)) : list effect :=
  Call GetAllServers ::
  match response with
  | Normal data =>
      [ SetHealthcheckCache
          (λ prev, {| urls := urls prev; servers := data;
                      healthStatuses := healthStatuses prev;
                      lastUpdated := now; isLoading := isLoading prev |}) ]
  | Abrupt e => [ ConsoleError "Error loading servers:" e ]
  end.

(** How the requests of a delete and of the reloads after it settle, with
    the clock readings of the two reloads. *)
Record outcome : Type := Outcome {
  confirmed : bool;
  deleted : completion unit;
  urls_loaded : value * completion (list obj);
  health_loaded : value * completion (list obj);
  servers_loaded : value * completion (list obj);
}.

(** [handleDeleteUrl(urlId)] *)
Definition handleDeleteUrl (o : outcome) (urlId : value) : list effect :=
  Confirm "Are you sure you want to delete this URL?" ::
  if confirmed o then
    Call (DeleteUrl urlId) ::
    match deleted o with
    | Normal _ =>
        loadUrls (urls_loaded o).1 (urls_loaded o).2
        ++ loadHealthStatuses (health_loaded o).1 (health_loaded o).2
    | Abrupt e =>
        [ ConsoleError "Error deleting URL:" e; Alert "Failed to delete URL" ]
    end
  else [].

(** [handleDeleteServer(serverId)] *)
Definition handleDeleteServer (o : outcome) (serverId : value) : list effect :=
  Confirm "Are you sure you want to delete this server?" ::
  if confirmed o then
    Call (DeleteServer serverId) ::
    match deleted o with
    | Normal _ => loadServers (servers_loaded o).1 (servers_loaded o).2
    | Abrupt e =>
        [ ConsoleError "Error deleting server:" e; Alert "Failed to delete server" ]
    end
  else [].

(** React applies the queued updaters of [setHealthcheckCache] in order. *)
Fixpoint apply_updates (effects : list effect) (cache : healthcheckCache)
    : healthcheckCache :=
  match effects with
  | [] => cache
  | SetHealthcheckCache updater :: rest => apply_updates rest (updater cache)
  | _ :: rest => apply_updates rest cache
  end.

(** The requests among the effects, in order. *)
Fixpoint requests (effects : list effect) : list request :=
  match effects with
  | [] => []
  | Call r :: rest => r :: requests rest
  | _ :: rest => requests rest
  end.

(** The alerts among the effects, in order. *)
Fixpoint alerts (effects : list effect) : list string :=
  match effects with
  | [] => []
  | Alert text :: rest => text :: alerts rest
  | _ :: rest => alerts rest
  end.

End AppLoaders.

(* ===================================================================== *)
(** * Part II: theorems                                                    *)
(* ===================================================================== *)

Module WebSocketFacts.
Import Js WebSocketService.

Section Notify.
Context {U : Type} (call : behaviour U).

(** The loop of [notifyListeners] over any snapshot of the listener array:
    it ends normally and calls each element once, in order. *)
Lemma notify_loop_calls (data : message) (snapshot : list ref) (m : machine U) :
  ∃ m',
    forEach
      (λ callback,
         try_catch (invoke call callback data)
                   (λ error, console_error "Error in WebSocket listener:" error))
      snapshot m = (m', Normal tt)
    ∧ calls m' = calls m ++ map (λ callback, (callback, data)) snapshot.
Proof.
  revert m. induction snapshot as [|cb rest IH]; intros m; simpl.
  - exists m. by rewrite app_nil_r.
  - unfold try_catch at 1, invoke at 1.
    destruct (call cb data (mworld m)) as [w' [[]|e]]; simpl.
    + destruct (IH (Machine w' (calls m ++ [(cb, data)]))) as (m' & -> & Hc).
      exists m'. split; [done|]. rewrite Hc. simpl. by rewrite <- app_assoc.
    + destruct (IH (Machine (World (service w') (console w' ++ [("Error in WebSocket listener:", e)]) (app w'))
                            (calls m ++ [(cb, data)]))) as (m' & -> & Hc).
      exists m'. split; [done|]. rewrite Hc. simpl. by rewrite <- app_assoc.
Qed.

(** A callback that is not in the listener array when [notifyListeners]
    starts is not called by it. *)
Lemma notify_skips_absent (data : message) (m : machine U) (callback : ref) :
  callback ∉ listeners (service (mworld m)) →
  ∀ d, (callback, d) ∈ calls (notifyListeners call data m).1 → (callback, d) ∈ calls m.
Proof.
  intros Hout d. unfold notifyListeners.
  destruct (notify_loop_calls data (listeners (service (mworld m))) m) as (m' & Hrun & Hc).
  rewrite Hrun. simpl. rewrite Hc, elem_of_app. intros [H|H]; [done|].
  apply list_elem_of_fmap in H as (cb & [= -> _] & Hin). done.
Qed.

End Notify.

Lemma listeners_set_listeners ls this : listeners (set_listeners ls this) = ls.
Proof. done. Qed.

Lemma set_listeners_id this : set_listeners (listeners this) this = this.
Proof. by destruct this. Qed.

Lemma subscribe_returns callback this : (subscribe callback this).2 = Unsubscribe callback.
Proof. done. Qed.

Lemma listeners_unsubscribe callback this :
  listeners (unsubscribe (Unsubscribe callback) this)
  = filter (λ listener, listener ≠ callback) (listeners this).
Proof. done. Qed.

Lemma unsubscribe_absent callback this :
  callback ∉ listeners (unsubscribe (Unsubscribe callback) this).
Proof. rewrite listeners_unsubscribe, list_elem_of_filter. tauto. Qed.

(** Filtering out a callback that does not occur changes nothing. *)
Lemma filter_absent (callback : ref) (ls : list ref) :
  callback ∉ ls → filter (λ listener, listener ≠ callback) ls = ls.
Proof.
  induction ls as [|x ls IH]; [done|].
  rewrite not_elem_of_cons. intros [Hx Hls].
  rewrite filter_cons_True by done. by rewrite IH.
Qed.

(** Operations other than a fresh [subscribe(callback)] keep an absent
    callback absent. *)
Lemma perform_keeps_absent callback (ops : list operation) this :
  DoSubscribe callback ∉ ops →
  callback ∉ listeners this →
  callback ∉ listeners (foldl (λ s o, perform o s) this ops).
Proof.
  revert this. induction ops as [|o ops IH]; intros this Hops Hout; [done|].
  apply not_elem_of_cons in Hops as [Ho Hops]. simpl. apply IH; [done|].
  destruct o as [cb|[cb]]; simpl.
  - rewrite not_elem_of_app, list_elem_of_singleton. split; [done|]. congruence.
  - rewrite list_elem_of_filter. tauto.
Qed.

Lemma listeners_subscribe_times n callback this :
  listeners (subscribe_times n callback this) = listeners this ++ replicate n callback.
Proof.
  induction n as [|n IH].
  - simpl. by rewrite app_nil_r.
  - change (subscribe_times (S n) callback this)
      with (subscribe callback (subscribe_times n callback this)).1.
    unfold subscribe. simpl. rewrite IH, <- app_assoc. f_equal.
    symmetry. apply replicate_cons_app.
Qed.

Lemma filter_replicate_self (n : nat) (callback : ref) :
  filter (λ listener, listener ≠ callback) (replicate n callback) = [].
Proof.
  induction n as [|n IH]; [done|]. simpl.
  rewrite filter_cons_False by naive_solver. done.
Qed.


(** The failing subscriber comes first, the counting one second: the frame
    still reaches the second, the error goes to the console, and the call
    returns normally. *)
Example failing_listener_first :
  let ping := Message (VStr "health_update") None in
  let this := (subscribe 1 (subscribe 0 constructor).1).1 in
  ∃ m, notifyListeners failing_and_counting ping (with_service this fresh) = (m, Normal tt)
       ∧ app (mworld m) = 1
       ∧ calls m = [(0, ping); (1, ping)]
       ∧ console (mworld m)
         = [("Error in WebSocket listener:", Thrown (VStr "listener failed"))].
Proof. eexists. repeat split; reflexivity. Qed.

(** Without the [try]/[catch] around the call the same loop stops at the
    failing subscriber and the exception leaves it. *)
Example bare_loop_propagates :
  let ping := Message (VStr "health_update") None in
  ∃ m, forEach (λ callback, invoke failing_and_counting callback ping) [0; 1] fresh
       = (m, Abrupt (Thrown (VStr "listener failed")))
       ∧ app (mworld m) = 0 ∧ calls m = [(0, ping)].
Proof. eexists. repeat split; reflexivity. Qed.

(** The same function subscribed twice around another one, then one call
    of the first closure: both registrations are gone. *)
Example double_registration :
  let s1 := subscribe 7 constructor in
  let s2 := subscribe 8 s1.1 in
  let s3 := subscribe 7 s2.1 in
  listeners s3.1 = [7; 8; 7] ∧ listeners (unsubscribe s1.2 s3.1) = [8].
Proof. split; reflexivity. Qed.

(** C5. The closure [subscribe(callback)] returns removes the callback from
    the listener array: after it is called the callback is not a listener,
    it stays out through any further operations except a new
    [subscribe(callback)], and from any such state [notifyListeners] does
    not call it; and when the callback was not subscribed before,
    [subscribe] followed by its [unsubscribe] gives back the service as it
    was. *)
Theorem subscribe_then_unsubscribe (this : t) (callback : ref) :
  let detached := unsubscribe (subscribe callback this).2 (subscribe callback this).1 in
  (callback ∉ listeners detached)
  ∧ (∀ (later : list operation) (U : Type) (call : behaviour U)
       (data : message) (m : machine U),
       DoSubscribe callback ∉ later →
       service (mworld m) = foldl (λ s o, perform o s) detached later →
       ∀ d, (callback, d) ∈ calls (notifyListeners call data m).1 →
            (callback, d) ∈ calls m)
  ∧ (callback ∉ listeners this → detached = this).
Proof.
  intros detached.
  assert (Hgone : callback ∉ listeners detached)
    by apply (unsubscribe_absent callback (subscribe callback this).1).
  split; [done|]. split.
  - intros later U call data m Hlater Hs. apply notify_skips_absent. rewrite Hs.
    by apply perform_keeps_absent.
  - intros Hout. subst detached. unfold unsubscribe, subscribe; simpl.
    rewrite filter_app, filter_absent by done.
    rewrite filter_cons_False by naive_solver. rewrite filter_nil, app_nil_r.
    by destruct this.
Qed.

(** C10. Removal is by reference and takes every occurrence: when the same
    function object was subscribed [n] more times, one call of any closure
    that [subscribe] returned for it leaves no registration of it (the
    other listeners stay, in order), and [notifyListeners] then never
    calls it. *)
Theorem unsubscribe_removes_every_occurrence
    (this any : t) (callback : ref) (n : nat) :
  let subscribed := subscribe_times n callback this in
  let detached := unsubscribe (subscribe callback any).2 subscribed in
  listeners subscribed = listeners this ++ replicate n callback
  ∧ listeners detached = filter (λ listener, listener ≠ callback) (listeners this)
  ∧ (callback ∉ listeners detached)
  ∧ (∀ (U : Type) (call : behaviour U) (data : message) (m : machine U),
       service (mworld m) = detached →
       ∀ d, (callback, d) ∈ calls (notifyListeners call data m).1 →
            (callback, d) ∈ calls m).
Proof.
  intros subscribed detached.
  assert (Hsub : listeners subscribed = listeners this ++ replicate n callback)
    by apply listeners_subscribe_times.
  assert (Hgone : callback ∉ listeners detached)
    by apply (unsubscribe_absent callback subscribed).
  split; [done|]. split; [|split; [done|]].
  - subst detached. rewrite subscribe_returns, listeners_unsubscribe, Hsub.
    by rewrite filter_app, filter_replicate_self, app_nil_r.
  - intros U call data m Hs. apply notify_skips_absent. by rewrite Hs.
Qed.

End WebSocketFacts.


Module JsFacts.
Import Js.
Import SpecFloat.

(** When two doubles compare equal they are the same datum or both zeros. *)
Lemma SFeqb_inv (a b : spec_float) :
  SFeqb a b = true →
  a = b ∨ ∃ s1 s2, a = S754_zero s1 ∧ b = S754_zero s2.
Proof.
  unfold SFeqb.
  destruct a as [sa|sa| |sa ma ea], b as [sb|sb| |sb mb eb]; simpl;
    try discriminate; try (destruct sa; discriminate); try (destruct sb; discriminate).
  - intros _. right. eauto.
  - destruct sa, sb; try discriminate; intros _; by left.
  - destruct sa, sb; try discriminate;
      destruct (Z.compare_spec ea eb) as [->| |]; try discriminate;
      rewrite Pos.compare_cont_spec; simpl;
      destruct (Pos.compare_spec ma mb) as [->| |]; try discriminate;
      intros _; by left.
Qed.

Lemma SFeqb_zero s1 s2 : SFeqb (S754_zero s1) (S754_zero s2) = true.
Proof. done. Qed.

Lemma SFeqb_sym a b : SFeqb a b = true → SFeqb b a = true.
Proof.
  intros H. destruct (SFeqb_inv _ _ H) as [->|(s1 & s2 & -> & ->)]; [done|].
  apply SFeqb_zero.
Qed.

Lemma SFeqb_trans a b c : SFeqb a b = true → SFeqb b c = true → SFeqb a c = true.
Proof.
  intros Hab Hbc.
  destruct (SFeqb_inv _ _ Hab) as [->|(s1 & s2 & -> & ->)]; [done|].
  destruct (SFeqb_inv _ _ Hbc) as [<-|(s3 & s4 & _ & ->)]; apply SFeqb_zero.
Qed.

(** [===] is symmetric and transitive (it is not reflexive: NaN). *)
Lemma strict_eq_sym a b : strict_eq a b = true → strict_eq b a = true.
Proof.
  destruct a, b; simpl; try done.
  - intros ?%Bool.eqb_prop. subst. apply Bool.eqb_reflx.
  - rewrite !FloatAxioms.eqb_spec. apply SFeqb_sym.
  - intros ?%String.eqb_eq. subst. apply String.eqb_refl.
Qed.

Lemma strict_eq_trans a b c :
  strict_eq a b = true → strict_eq b c = true → strict_eq a c = true.
Proof.
  destruct a, b; simpl; try done; destruct c; simpl; try done.
  - intros ?%Bool.eqb_prop ?%Bool.eqb_prop. subst. apply Bool.eqb_reflx.
  - rewrite !FloatAxioms.eqb_spec. apply SFeqb_trans.
  - intros ?%String.eqb_eq ?%String.eqb_eq. subst. apply String.eqb_refl.
Qed.

Lemma strict_eq_false_sym a b : strict_eq a b = false → strict_eq b a = false.
Proof.
  intros H. destruct (strict_eq b a) eqn:E; [|done].
  apply strict_eq_sym in E. congruence.
Qed.

Section Search.
Context {A : Type} (p : A → bool).

(** [findIndex] returns the first index that satisfies the predicate. *)
Lemma findIndex_Some (arr : list A) (i : nat) :
  findIndex p arr = Some i →
  ∃ x, arr !! i = Some x ∧ p x = true
       ∧ ∀ j y, j < i → arr !! j = Some y → p y = false.
Proof.
  revert i. induction arr as [|a arr IH]; intros i; simpl; [done|].
  destruct (p a) eqn:Hp.
  - intros [= <-]. exists a. split; [done|]. split; [done|]. intros; lia.
  - destruct (findIndex p arr) as [k|]; simpl; [|done].
    intros [= <-]. destruct (IH k eq_refl) as (x & Hx & Hpx & Hfirst).
    exists x. split; [done|]. split; [done|].
    intros [|j] y Hj; simpl; [by intros [= <-]|].
    apply Hfirst. lia.
Qed.

Lemma findIndex_None (arr : list A) :
  findIndex p arr = None ↔ ∀ x, x ∈ arr → p x = false.
Proof.
  induction arr as [|a arr IH]; simpl.
  - split; [|done]. intros _ x Hx. by apply elem_of_nil in Hx.
  - destruct (p a) eqn:Hp.
    + split; [done|]. intros H. specialize (H a (list_elem_of_here _ _)). congruence.
    + destruct (findIndex p arr) as [k|]; simpl.
      * split; [done|]. intros H.
        assert (Some k = None) as Hk; [|done].
        apply IH. intros x Hx. apply H. by apply list_elem_of_further.
      * split; [|done]. intros _ x [->|Hx]%elem_of_cons; [done|].
        by apply IH.
Qed.

Lemma findIndex_is_Some (arr : list A) :
  (∃ x, x ∈ arr ∧ p x = true) → is_Some (findIndex p arr).
Proof.
  intros (x & Hx & Hpx). destruct (findIndex p arr) as [i|] eqn:E; [eauto|].
  rewrite findIndex_None in E. specialize (E x Hx). congruence.
Qed.

(** [find] returns the first element that satisfies the predicate. *)
Lemma find_first (arr : list A) (i : nat) (x : A) :
  arr !! i = Some x → p x = true →
  (∀ j y, j < i → arr !! j = Some y → p y = false) →
  find p arr = Some x.
Proof.
  revert i. induction arr as [|a arr IH]; intros i; [done|].
  destruct i as [|i]; simpl.
  - intros [= ->] -> _. done.
  - intros Hx Hpx Hfirst.
    rewrite (Hfirst 0 a) by (done || lia).
    apply (IH i); [done..|]. intros j y Hj Hy. apply (Hfirst (S j)); [lia|done].
Qed.

Lemma find_None (arr : list A) :
  (∀ x, x ∈ arr → p x = false) → find p arr = None.
Proof.
  induction arr as [|a arr IH]; [done|]. intros H. simpl.
  rewrite (H a) by apply list_elem_of_here.
  apply IH. intros x Hx. apply H. by apply list_elem_of_further.
Qed.

End Search.
End JsFacts.

Module AppFacts.
Import Js WebSocketService App JsFacts.

Lemma get_health_entry (data : obj) (k : string) :
  k ∈ health_fields → get (health_entry data) k = get data k.
Proof.
  unfold health_fields, health_entry, get. intros Hk.
  repeat (apply elem_of_cons in Hk as [->|Hk]; [by simplify_map_eq|]).
  by apply elem_of_nil in Hk.
Qed.

Lemma dom_health_entry (data : obj) :
  dom (health_entry data) = list_to_set health_fields.
Proof. unfold health_entry, health_fields. rewrite !dom_insert_L. set_solver. Qed.

(** The entry depends on the six members only. *)
Lemma health_entry_ext (data data' : obj) :
  (∀ k, k ∈ health_fields → get data' k = get data k) →
  health_entry data' = health_entry data.
Proof.
  intros H. unfold health_entry.
  rewrite !H by (unfold health_fields; set_solver). done.
Qed.

(** On a [health_update] frame with a payload the handler returns, and the
    new array is the old one with the entry put at the first index whose
    [url_id] matches, or at the end when there is none. *)
Lemma handle_health_update (now : value) (data : obj) (prev : healthcheckCache) :
  ∃ next,
    handleWebSocketMessage now (health_update data) prev = Normal next
    ∧ urls next = urls prev ∧ servers next = servers prev
    ∧ isLoading next = isLoading prev ∧ lastUpdated next = now
    ∧ healthStatuses next =
        match findIndex (λ h, strict_eq (get h "url_id") (get data "url_id"))
                        (healthStatuses prev) with
        | Some i => <[i := health_entry data]> (healthStatuses prev)
        | None => healthStatuses prev ++ [health_entry data]
        end.
Proof. eexists. split; [reflexivity|]. done. Qed.

(** A frame without a payload makes the updater throw. *)
Lemma handle_health_update_no_data (now : value) (prev : healthcheckCache) :
  ∃ e, handleWebSocketMessage now (Message (VStr "health_update") None) prev = Abrupt e.
Proof. eexists. reflexivity. Qed.

(** Frames of another type leave the cache as it is. *)
Lemma handle_other_type (now : value) (m : message) (prev : healthcheckCache) :
  strict_eq (msg_type m) (VStr "health_update") = false →
  handleWebSocketMessage now m prev = Normal prev.
Proof. unfold handleWebSocketMessage. by intros ->. Qed.

(** C8. The cache is upserted by [url_id]: on every [health_update] frame
    with payload [data] the handler returns a cache in which, if some entry
    had the frame's [url_id], the first such entry is replaced by the six
    members of [data] and the array keeps its length, and otherwise the new
    entry is appended (one more element); entries with another [url_id]
    keep their place and content; and an array with at most one entry per
    [url_id] stays so. *)
Theorem health_update_upserts_by_url_id
    (now : value) (data : obj) (prev : healthcheckCache) :
  let matches := λ h : obj, strict_eq (get h "url_id") (get data "url_id") in
  ∃ next,
    handleWebSocketMessage now (health_update data) prev = Normal next
    ∧ ((∃ h, h ∈ healthStatuses prev ∧ matches h = true) →
       ∃ i h, healthStatuses prev !! i = Some h ∧ matches h = true
              ∧ (∀ j y, j < i → healthStatuses prev !! j = Some y → matches y = false)
              ∧ healthStatuses next = <[i := health_entry data]> (healthStatuses prev)
              ∧ healthStatuses next !! i = Some (health_entry data)
              ∧ length (healthStatuses next) = length (healthStatuses prev))
    ∧ ((∀ h, h ∈ healthStatuses prev → matches h = false) →
       healthStatuses next = healthStatuses prev ++ [health_entry data])
    ∧ (∀ j h, healthStatuses prev !! j = Some h → matches h = false →
              healthStatuses next !! j = Some h)
    ∧ (one_entry_per_url_id (healthStatuses prev) →
       one_entry_per_url_id (healthStatuses next)).
Proof.
  intros matches.
  destruct (handle_health_update now data prev) as (next & Hrun & _ & _ & _ & _ & Hnext).
  exists next. split; [done|]. fold matches in Hnext.
  assert (Hid : get (health_entry data) "url_id" = get data "url_id")
    by (apply get_health_entry; apply list_elem_of_here).
  destruct (findIndex matches (healthStatuses prev)) as [i|] eqn:Hfind.
  - destruct (findIndex_Some _ _ _ Hfind) as (hi & Hi & Hmi & Hfirst).
    assert (Hlt : i < length (healthStatuses prev)) by by eapply lookup_lt_Some.
    repeat split.
    + intros _. exists i, hi. rewrite Hnext.
      repeat split; try done.
      * by apply list_lookup_insert_eq.
      * by rewrite length_insert.
    + intros Hnone. apply findIndex_None in Hnone. congruence.
    + intros j h Hj Hmj. rewrite Hnext.
      rewrite list_lookup_insert_ne; [done|]. intros <-. congruence.
    + intros Huniq a b ha hb. rewrite Hnext. intros Ha Hb Heq.
      destruct (decide (a = i)) as [->|Hai], (decide (b = i)) as [->|Hbi]; [done| | |].
      * rewrite list_lookup_insert_eq in Ha by done.
        rewrite list_lookup_insert_ne in Hb by done.
        injection Ha as <-. rewrite Hid in Heq.
        apply (Huniq i b hi hb Hi Hb). by eapply strict_eq_trans.
      * rewrite list_lookup_insert_ne in Ha by done.
        rewrite list_lookup_insert_eq in Hb by done.
        injection Hb as <-. rewrite Hid in Heq.
        apply (Huniq a i ha hi Ha Hi).
        eapply strict_eq_trans; [done|]. by apply strict_eq_sym.
      * rewrite list_lookup_insert_ne in Ha, Hb by done. by eapply Huniq.
  - pose proof (proj1 (findIndex_None _ _) Hfind) as Hnone.
    repeat split.
    + intros (h & Hh & Hm). rewrite (Hnone h Hh) in Hm. done.
    + done.
    + intros j h Hj _. rewrite Hnext. by apply lookup_app_l_Some.
    + intros Huniq a b ha hb. rewrite Hnext. intros Ha Hb Heq.
      apply lookup_snoc_Some in Ha as [[Hla Ha]|[-> <-]];
        apply lookup_snoc_Some in Hb as [[Hlb Hb]|[-> <-]].
      * by eapply Huniq.
      * rewrite Hid in Heq.
        assert (matches ha = false) as Hf
          by (apply Hnone; by eapply list_elem_of_lookup_2).
        unfold matches in Hf. congruence.
      * rewrite Hid in Heq. apply strict_eq_sym in Heq.
        assert (matches hb = false) as Hf
          by (apply Hnone; by eapply list_elem_of_lookup_2).
        unfold matches in Hf. congruence.
      * done.
Qed.

(** The entry the handler wrote is in the new array. *)
Lemma health_update_entry_stored (now : value) (data : obj) (prev : healthcheckCache) :
  ∃ next,
    handleWebSocketMessage now (health_update data) prev = Normal next
    ∧ health_entry data ∈ healthStatuses next.
Proof.
  destruct (handle_health_update now data prev) as (next & Hrun & _ & _ & _ & _ & Hnext).
  exists next. split; [done|]. rewrite Hnext.
  destruct (findIndex _ _) as [i|] eqn:Hfind.
  - destruct (findIndex_Some _ _ _ Hfind) as (hi & Hi & _).
    apply list_elem_of_lookup. exists i. apply list_lookup_insert_eq.
    by eapply lookup_lt_Some.
  - set_solver.
Qed.

(** The push-channel shape of the specification, with [target_id], is not
    what the handler consumes: from the empty cache a frame for target 7
    leaves an entry whose [url_id] is [undefined]. *)
Lemma target_id_is_not_the_identifying_member : ¬ identifies_target_by "target_id".
Proof.
  intros H.
  destruct (H VNull (target_id_payload (float_of_Z 7)) initial_cache)
    as (next & h & Hrun & Hh & Hid & _).
  vm_compute in Hrun. injection Hrun as <-.
  simpl in Hh. apply list_elem_of_singleton in Hh. subst h.
  vm_compute in Hid. discriminate.
Qed.

(** C1 (amended). Every [health_update] frame the handler consumes is read
    through the members [url_id], [status], [response_time],
    [status_code], [checked_at] and [error_message] of its payload: the
    entry it stores has exactly these six properties, each with the
    payload's value, [url_id] being the one that identifies the target; and
    no other member of the payload is looked at: two payloads that agree on
    the six give the same cache.  Frames whose [type] is not
    "health_update" do not touch the cache. *)
Theorem health_update_payload_shape :
  identifies_target_by "url_id"
  ∧ (∀ data, dom (health_entry data) = list_to_set health_fields)
  ∧ (∀ now data data' prev,
       (∀ k, k ∈ health_fields → get data' k = get data k) →
       handleWebSocketMessage now (health_update data') prev
       = handleWebSocketMessage now (health_update data) prev)
  ∧ (∀ now m prev,
       strict_eq (msg_type m) (VStr "health_update") = false →
       handleWebSocketMessage now m prev = Normal prev).
Proof.
  split; [|split; [|split]]; [| | |apply handle_other_type].
  - intros now data prev.
    destruct (health_update_entry_stored now data prev) as (next & Hrun & Hin).
    exists next, (health_entry data). split; [done|]. split; [done|]. split.
    + apply get_health_entry. apply list_elem_of_here.
    + intros k Hk. apply get_health_entry. by apply list_elem_of_further.
  - apply dom_health_entry.
  - intros now data data' prev Hagree.
    unfold handleWebSocketMessage, health_update, health_update_updater; simpl.
    rewrite (health_entry_ext data data') by done.
    rewrite (Hagree "url_id") by apply list_elem_of_here. done.
Qed.

(** The README's frame for URL 1 arrives twice, with a frame for URL 2 in
    between: two entries, the first one replaced in place. *)
Example upsert_scenario :
  ∃ c1 c2 c3,
    handleWebSocketMessage VNull (health_update (url_id_payload (float_of_Z 1) "online"))
                           initial_cache = Normal c1
    ∧ handleWebSocketMessage VNull (health_update (url_id_payload (float_of_Z 2) "online"))
                             c1 = Normal c2
    ∧ handleWebSocketMessage VNull (health_update (url_id_payload (float_of_Z 1) "offline"))
                             c2 = Normal c3
    ∧ healthStatuses c3 = [ health_entry (url_id_payload (float_of_Z 1) "offline");
                            health_entry (url_id_payload (float_of_Z 2) "online") ].
Proof. do 3 eexists. repeat split; vm_compute; reflexivity. Qed.

(** Two frames in the specification's shape, for targets 7 and 8, end up in
    one entry: without [url_id] the handler cannot tell them apart. *)
Example target_id_frames_collide :
  ∃ c1 c2,
    handleWebSocketMessage VNull (health_update (target_id_payload (float_of_Z 7)))
                           initial_cache = Normal c1
    ∧ handleWebSocketMessage VNull (health_update (target_id_payload (float_of_Z 8)))
                             c1 = Normal c2
    ∧ length (healthStatuses c2) = 1
    ∧ (λ h, get h "url_id") <$> healthStatuses c2 = [VUndefined].
Proof. do 2 eexists. repeat split; vm_compute; reflexivity. Qed.

End AppFacts.

Module URLTableFacts.
Import Js URLTable JsFacts.

(** With no entry for the URL, [getHealthStatus] falls back to the literal
    of the [||]. *)
Lemma getHealthStatus_no_entry (healthStatuses : list obj) (urlId : value) :
  (∀ h, h ∈ healthStatuses → strict_eq (get h "url_id") urlId = false) →
  getHealthStatus healthStatuses urlId = VStr "offline".
Proof. intros H. unfold getHealthStatus. by rewrite find_None. Qed.

(** A URL without any health entry is not reported as "unknown": for the
    empty array the function answers "offline". *)
Lemma no_entry_is_not_unknown :
  ¬ (∀ (healthStatuses : list obj) (urlId : value),
       (∀ h, h ∈ healthStatuses → strict_eq (get h "url_id") urlId = false) →
       getHealthStatus healthStatuses urlId = VStr "unknown").
Proof.
  intros H. specialize (H [] (VNum (float_of_Z 1))).
  assert (Hnone : ∀ h : obj, h ∈ [] → strict_eq (get h "url_id") (VNum (float_of_Z 1)) = false)
    by (intros h Hh; by apply elem_of_nil in Hh).
  specialize (H Hnone). rewrite getHealthStatus_no_entry in H by done.
  discriminate H.
Qed.

(** C2 (amended). For a URL with no entry in [healthStatuses] the status
    shown is "offline"; for a URL with an entry it is the [status] of the
    first entry with that [url_id] (the only one when the array has one
    entry per URL), unless that status is missing or falsy, in which case
    it is "offline" again. *)
Theorem getHealthStatus_latest_or_offline (healthStatuses : list obj) (urlId : value) :
  let matches := λ h : obj, strict_eq (get h "url_id") urlId in
  ((∀ h, h ∈ healthStatuses → matches h = false) →
   getHealthStatus healthStatuses urlId = VStr "offline")
  ∧ (∀ i h, healthStatuses !! i = Some h → matches h = true →
            (∀ j y, j < i → healthStatuses !! j = Some y → matches y = false) →
            getHealthStatus healthStatuses urlId
            = if truthy (get h "status") then get h "status" else VStr "offline")
  ∧ (∀ i h s, healthStatuses !! i = Some h → matches h = true →
              (∀ j y, j < i → healthStatuses !! j = Some y → matches y = false) →
              get h "status" = VStr s → s ≠ "" →
              getHealthStatus healthStatuses urlId = VStr s).
Proof.
  intros matches.
  assert (Hfirst : ∀ i h, healthStatuses !! i = Some h → matches h = true →
            (∀ j y, j < i → healthStatuses !! j = Some y → matches y = false) →
            getHealthStatus healthStatuses urlId = js_or (get h "status") (VStr "offline")).
  { intros i h Hi Hm Hbefore. unfold getHealthStatus.
    pose proof (find_first matches healthStatuses i h Hi Hm Hbefore) as Hfind.
    unfold matches in Hfind. by rewrite Hfind. }
  split; [apply getHealthStatus_no_entry|]. split.
  - intros i h Hi Hm Hbefore. by rewrite (Hfirst i h).
  - intros i h s Hi Hm Hbefore Hs Hne. rewrite (Hfirst i h) by done.
    rewrite Hs. unfold js_or; simpl.
    destruct (String.eqb_spec s ""); [done|done].
Qed.

(** The first end-to-end reading: URL 1 online, URL 2 never checked. *)
Example status_scenario :
  let cache := [ App.health_entry (App.url_id_payload (float_of_Z 1) "online") ] in
  getHealthStatus cache (VNum (float_of_Z 1)) = VStr "online"
  ∧ getHealthStatus cache (VNum (float_of_Z 2)) = VStr "offline".
Proof. split; vm_compute; reflexivity. Qed.

Section Toggle.
Variable ToString : value → string.

Lemma get_insert_eq (s : toggleStates) (k : string) (v : value) :
  get (<[k := v]> s) k = v.
Proof. unfold get. by rewrite lookup_insert_eq. Qed.

Lemma get_insert_ne (s : toggleStates) (k k' : string) (v : value) :
  k ≠ k' → get (<[k := v]> s) k' = get s k'.
Proof. intros. unfold get. by rewrite lookup_insert_ne. Qed.

(** Every updater the handler queues writes the URL's own key only. *)
Lemma handler_updaters_are_local
    (onRefresh : option (completion unit)) (patch : completion unit)
    (urlId currentStatus : value) (updater : toggleStates → toggleStates) :
  SetToggleStates updater ∈ handleToggleHealthCheck ToString onRefresh patch urlId currentStatus →
  ∃ v, ∀ s, updater s = <[ToString urlId := v]> s.
Proof.
  unfold handleToggleHealthCheck, on_error.
  destruct patch as [[]|e]; [destruct onRefresh as [[[]|e]|]|];
    intros H; repeat (apply elem_of_cons in H as [H|H]; [try discriminate H|]);
    try (by apply elem_of_nil in H);
    injection H as ->; eauto.
Qed.

(** C9. Toggling is undone on failure: called with the toggle state the row
    shows, the handler first sets the URL's entry to the negation of that
    state; when the PATCH request is rejected it then writes the shown
    state back, so that afterwards every entry reads as before the call
    (and the object is the very same when the URL had an entry); and
    whatever the outcome, the updaters it queues leave the entry of every
    other URL as they find it. *)
Theorem toggle_failure_restores_state
    (onRefresh : option (completion unit)) (e : error)
    (urlId : value) (shown : toggleStates) :
  let key := ToString urlId in
  let effects := onChange ToString onRefresh (Abrupt e) shown urlId in
  (∃ flip rest, effects = SetToggleStates flip :: rest
                ∧ get (flip shown) key = js_not (get shown key)
                ∧ ∀ k, k ≠ key → flip shown !! k = shown !! k)
  ∧ (∀ k, get (apply_updates effects shown) k = get shown k)
  ∧ (is_Some (shown !! key) → apply_updates effects shown = shown)
  ∧ (∀ refresh patch currentStatus updater,
       SetToggleStates updater
         ∈ handleToggleHealthCheck ToString refresh patch urlId currentStatus →
       ∀ s k, k ≠ key → updater s !! k = s !! k).
Proof.
  intros key effects. split; [|split; [|split]].
  - eexists _, _. split; [reflexivity|]. split.
    + apply get_insert_eq.
    + intros k Hk. by apply lookup_insert_ne.
  - intros k. subst effects. unfold onChange, handleToggleHealthCheck, on_error. simpl.
    fold key. destruct (decide (key = k)) as [<-|Hk].
    + by rewrite get_insert_eq.
    + by rewrite !get_insert_ne.
  - intros [v Hv]. subst effects. unfold onChange, handleToggleHealthCheck, on_error. simpl.
    fold key. rewrite insert_insert_eq. apply insert_id.
    unfold get. by rewrite Hv.
  - intros refresh patch currentStatus updater Hin s k Hk.
    destruct (handler_updaters_are_local _ _ _ _ _ Hin) as [v ->].
    by apply lookup_insert_ne.
Qed.

End Toggle.

(** URL "1" is on, URL "2" is off; the user switches "1" off and the request
    is rejected: the entry was flipped in between and both read as before
    in the end. *)
Example toggle_rejected :
  let shown : toggleStates := {[ "1" := VBool true; "2" := VBool false ]} in
  let effects := onChange string_id (Some (Normal tt)) (Abrupt (Thrown VNull))
                          shown (VStr "1") in
  apply_updates (take 1 effects) shown = {[ "1" := VBool false; "2" := VBool false ]}
  ∧ apply_updates effects shown = shown
  ∧ Alert "Failed to toggle health check" ∈ effects.
Proof.
  split; [|split].
  - vm_compute. reflexivity.
  - vm_compute. reflexivity.
  - unfold onChange, handleToggleHealthCheck, on_error.
    do 4 apply list_elem_of_further. apply list_elem_of_here.
Qed.

End URLTableFacts.

Module HealthTimelineFacts.
Import Js HealthTimeline.

Lemma online_le_total (history : list obj) :
  length (List.filter is_online history) ≤ length history.
Proof. apply List.filter_length_le. Qed.

(** [h.status === 'online'] holds of the checks whose [status] property is
    the string "online" and of no other. *)
Lemma is_online_spec (h : obj) :
  is_online h
  = match h !! "status" with Some (VStr s) => String.eqb s "online" | _ => false end.
Proof.
  unfold is_online, get. destruct (h !! "status") as [[| |b|x|s]|]; reflexivity.
Qed.

(** The integer [Math.round] takes is the floor of [num / den + 1/2]. *)
Lemma nearest_integer_bounds (num den : Z) :
  (0 < den)%Z →
  (2 * ((2 * num + den) / (2 * den)) * den ≤ 2 * num + den
   < 2 * ((2 * num + den) / (2 * den) + 1) * den)%Z.
Proof.
  intros Hden.
  pose proof (Z.div_mod (2 * num + den) (2 * den) ltac:(lia)) as Heq.
  pose proof (Z.mod_pos_bound (2 * num + den) (2 * den) ltac:(lia)) as Hmod.
  set (q := ((2 * num + den) / (2 * den))%Z) in *.
  set (r := ((2 * num + den) mod (2 * den))%Z) in *.
  nia.
Qed.

(** C3. The uptime shown is [onlineCount/totalCount] over the loaded window.
    With an empty history the component answers "No data" and computes no
    ratio.  With a non-empty one it shows [onlineCount], the number of
    checks of the history whose status is the string "online", over
    [totalCount], the number of all its checks, and as percentage the
    integer nearest to the double [(onlineCount / totalCount) * 100] (IEEE
    division and multiplication of the two counts and of 100 as doubles;
    of two integers equally near the upper one; when that double is not a
    finite non-zero number it is shown as it is).  And whenever a ratio is
    shown at all, its divisor is the positive length of the history, so no
    number comes out of a division by zero. *)
Theorem uptime_is_online_over_total (history : list obj) :
  let double := λ z : Z,
    FloatOps.SF2Prim (SpecFloat.binary_normalize FloatOps.prec FloatOps.emax z 0 false) in
  let online := λ h : obj,
    match h !! "status" with Some (VStr s) => String.eqb s "online" | _ => false end in
  let totalCount := length history in
  let onlineCount := length (List.filter online history) in
  let scaled :=
    PrimFloat.mul
      (PrimFloat.div (double (Z.of_nat onlineCount)) (double (Z.of_nat totalCount)))
      (double 100%Z) in
  (totalCount = 0 → render false history = NoData)
  ∧ (0 < totalCount →
     ∃ pct,
       render false history
       = Timeline (reverse (take 10 history)) pct onlineCount totalCount
       ∧ match FloatOps.Prim2SF scaled with
         | SpecFloat.S754_finite s m e =>
             ∃ n : Z,
               (let num := (if s then - Z.pos m else Z.pos m) * 2 ^ Z.max e 0 in
                let den := 2 ^ Z.max (- e) 0 in
                2 * n * den ≤ 2 * num + den < 2 * (n + 1) * den)%Z
               ∧ pct = (if (n =? 0)%Z && s then PrimFloat.neg_zero else double n)
         | _ => pct = scaled
         end)
  ∧ (∀ loading dots pct a b,
       render loading history = Timeline dots pct a b →
       0 < b ∧ b = totalCount ∧ a = onlineCount ∧ a ≤ b).
Proof.
  intros double online totalCount onlineCount scaled.
  assert (Hcount : length (List.filter is_online history) = onlineCount).
  { subst onlineCount. f_equal. apply List.filter_ext. intros h. apply is_online_spec. }
  split; [|split].
  - intros H0. unfold render. fold totalCount. by rewrite H0.
  - intros Hpos. unfold render. fold totalCount.
    destruct (Nat.eqb_spec totalCount 0) as [|_]; [lia|].
    destruct (Nat.ltb_spec 0 totalCount) as [_|]; [|lia].
    rewrite Hcount. eexists. split; [reflexivity|].
    change (PrimFloat.mul (ratio onlineCount totalCount) (float_of_Z 100)) with scaled.
    unfold Math_round. destruct (FloatOps.Prim2SF scaled) as [| | |s m e]; try reflexivity.
    eexists. split; [|reflexivity].
    apply nearest_integer_bounds. apply Z.pow_pos_nonneg; lia.
  - intros loading dots pct a b. unfold render. fold totalCount.
    destruct loading; [done|].
    destruct (Nat.eqb_spec totalCount 0) as [|Hne]; [done|].
    rewrite Hcount. intros [= _ _ <- <-].
    assert (onlineCount ≤ totalCount) by (rewrite <- Hcount; apply online_le_total).
    repeat split; try done; lia.
Qed.

(** Scenario 3: eight online and two offline results give 80% (8/10). *)
Example uptime_scenario_3 :
  let up : obj := {[ "status" := VStr "online" ]} in
  let down : obj := {[ "status" := VStr "offline" ]} in
  ∃ dots, render false [up; up; down; up; up; up; down; up; up; up]
          = Timeline dots (float_of_Z 80) 8 10.
Proof. eexists. vm_compute. reflexivity. Qed.

(** Scenario 4: no result in the window gives "No data", also after the
    loading flag is cleared. *)
Example uptime_scenario_4 : render false [] = NoData ∧ render true [] = LoadingText.
Proof. done. Qed.

(** The percentage is computed in doubles: 29 of 200 is 14.499999999999998
    before rounding, hence 14. *)
Example percentage_in_doubles :
  Math_round (PrimFloat.mul (ratio 29 200) (float_of_Z 100)) = float_of_Z 14.
Proof. vm_compute. reflexivity. Qed.

End HealthTimelineFacts.

Module SchedulerFacts.
Import Scheduler.

Lemma fst_unique (l : list (target_id * instant)) T t0 t1 :
  NoDup l.*1 → (T, t0) ∈ l → (T, t1) ∈ l → t0 = t1.
Proof.
  induction l as [|[T' t'] l IH]; simpl; [by intros _ ?%elem_of_nil|].
  rewrite NoDup_cons. intros [Hnotin Hnd].
  rewrite !elem_of_cons. intros [H0|H0] [H1|H1]; simplify_eq; try done.
  - exfalso. apply Hnotin. apply list_elem_of_fmap. eexists; split; [|eassumption]; done.
  - exfalso. apply Hnotin. apply list_elem_of_fmap. eexists; split; [|eassumption]; done.
  - by apply IH.
Qed.

Lemma remove_first_subset x l y : y ∈ remove_first x l → y ∈ l.
Proof.
  induction l as [|z l IH]; simpl; [done|].
  destruct (decide (x = z)) as [->|_].
  - by apply list_elem_of_further.
  - rewrite !elem_of_cons. intros [->|H]; [by left|right; by apply IH].
Qed.

Lemma remove_first_NoDup x l : NoDup l.*1 → NoDup (remove_first x l).*1.
Proof.
  induction l as [|z l IH]; simpl; [done|].
  rewrite NoDup_cons. intros [Hz Hnd].
  destruct (decide (x = z)) as [->|_]; [done|].
  simpl. apply NoDup_cons. split; [|by apply IH].
  intros Hin. apply Hz. apply list_elem_of_fmap in Hin as (y & -> & Hy).
  apply list_elem_of_fmap. exists y. split; [done|]. by eapply remove_first_subset.
Qed.

(** With one probe per target, taking the completed probe out leaves none
    for its target. *)
Lemma remove_first_gone T t0 t1 l :
  NoDup l.*1 → (T, t0) ∈ l → (T, t1) ∉ remove_first (T, t0) l.
Proof.
  induction l as [|z l IH]; simpl; [by intros _ ?%elem_of_nil|].
  rewrite NoDup_cons. intros [Hz Hnd] Hin.
  destruct (decide ((T, t0) = z)) as [<-|Hne].
  - intros H. apply Hz. apply list_elem_of_fmap. by exists (T, t1).
  - apply elem_of_cons in Hin as [?|Hin]; [done|].
    rewrite not_elem_of_cons. split; [|by apply IH].
    intros <-. apply Hz. apply list_elem_of_fmap. by exists (T, t0).
Qed.

Lemma non_decreasing_snoc (stamps : list instant) (x : instant) :
  non_decreasing stamps → (∀ a, a ∈ stamps → a ≤ x) → non_decreasing (stamps ++ [x]).
Proof.
  intros Hs Hx i j a b Hij Ha Hb.
  apply lookup_snoc_Some in Hb as [[Hj Hb]|[-> <-]].
  - apply lookup_snoc_Some in Ha as [[Hi Ha]|[-> <-]]; [exact (Hs i j a b Hij Ha Hb)|lia].
  - apply lookup_snoc_Some in Ha as [[Hi Ha]|[_ <-]]; [|done].
    apply Hx. by eapply list_elem_of_lookup_2.
Qed.

(** The log of a target after an append. *)
Lemma log_append (r : CheckResult) (T : target_id) (s : state) now' out' sk' pub' :
  log T {| now := now'; outstanding := out'; skipped := sk';
           store := append r (store s); published := pub' |}
  = if decide (T = target r) then log T s ++ [r] else log T s.
Proof.
  unfold log, append; simpl. destruct (decide (T = target r)) as [->|Hne].
  - by rewrite lookup_insert_eq.
  - by rewrite lookup_insert_ne.
Qed.

Lemma is_outstanding_spec T s : is_outstanding T s = true ↔ ∃ t0, (T, t0) ∈ outstanding s.
Proof.
  unfold is_outstanding. rewrite bool_decide_eq_true, list_elem_of_fmap. split.
  - intros ([T' t0] & -> & Hin). by exists t0.
  - intros (t0 & Hin). by exists (T, t0).
Qed.

(** *** One dispatch *)

Lemma dispatch_skip T s :
  is_outstanding T s = true →
  outstanding (dispatch T s) = outstanding s ∧ skipped (dispatch T s) = S (skipped s).
Proof. unfold dispatch. by intros ->. Qed.

Lemma dispatch_start T s :
  is_outstanding T s = false →
  outstanding (dispatch T s) = outstanding s ++ [(T, now s)]
  ∧ skipped (dispatch T s) = skipped s.
Proof. unfold dispatch. by intros ->. Qed.

Lemma dispatch_frame T s :
  now (dispatch T s) = now s ∧ store (dispatch T s) = store s
  ∧ published (dispatch T s) = published s.
Proof. unfold dispatch. by destruct (is_outstanding T s). Qed.

Lemma dispatch_keeps T s x : x ∈ outstanding s → x ∈ outstanding (dispatch T s).
Proof.
  intros Hx. destruct (is_outstanding T s) eqn:E.
  - by rewrite (proj1 (dispatch_skip T s E)).
  - rewrite (proj1 (dispatch_start T s E)). apply elem_of_app. by left.
Qed.

Lemma dispatch_accounts T s :
  skipped (dispatch T s) + length (outstanding (dispatch T s))
  = S (skipped s + length (outstanding s)).
Proof.
  destruct (is_outstanding T s) eqn:E.
  - destruct (dispatch_skip T s E) as [-> ->]. lia.
  - destruct (dispatch_start T s E) as [-> ->]. rewrite length_app. simpl. lia.
Qed.

Lemma dispatch_other T T' s :
  T ≠ T' → is_outstanding T' (dispatch T s) = is_outstanding T' s.
Proof.
  intros Hne. destruct (is_outstanding T s) eqn:E.
  - unfold is_outstanding. by rewrite (proj1 (dispatch_skip T s E)).
  - unfold is_outstanding. rewrite (proj1 (dispatch_start T s E)).
    apply bool_decide_ext. rewrite fmap_app, elem_of_app. simpl.
    rewrite list_elem_of_singleton. intuition congruence.
Qed.

Lemma dispatch_consistent T s : consistent s → consistent (dispatch T s).
Proof.
  intros [Hno Hdisp Hfiled Hbefore Hord].
  destruct (dispatch_frame T s) as (Hnow & Hstore & _).
  assert (Hlog : ∀ T', log T' (dispatch T s) = log T' s)
    by (intros T'; unfold log; by rewrite Hstore).
  destruct (is_outstanding T s) eqn:E.
  - destruct (dispatch_skip T s E) as [Hout _].
    split; unfold no_overlap; intros *; rewrite ?Hout, ?Hlog, ?Hnow; eauto.
  - destruct (dispatch_start T s E) as [Hout _].
    split; unfold no_overlap; intros *; rewrite ?Hout, ?Hlog, ?Hnow; eauto.
    + rewrite fmap_app. apply NoDup_app. split; [done|]. split; [|apply NoDup_singleton].
      simpl. intros T' HT' ->%list_elem_of_singleton.
      unfold is_outstanding in E. by apply bool_decide_eq_false in E.
    + rewrite elem_of_app, list_elem_of_singleton. intros [H|[= -> ->]]; eauto.
    + rewrite elem_of_app, list_elem_of_singleton. intros [H|[= -> ->]] Hr; [eauto|].
      by apply (Hfiled T r).
Qed.

(** *** One tick *)

Lemma tick_frame targets s :
  now (dispatch_all targets s) = now s ∧ store (dispatch_all targets s) = store s.
Proof.
  revert s. induction targets as [|T targets IH]; intros s; [done|].
  simpl. destruct (IH (dispatch (id T) s)) as [-> ->].
  destruct (dispatch_frame (id T) s) as (-> & -> & _). done.
Qed.

Lemma tick_keeps targets s x :
  x ∈ outstanding s → x ∈ outstanding (dispatch_all targets s).
Proof.
  revert s. induction targets as [|T targets IH]; intros s Hx; [done|].
  simpl. apply IH. by apply dispatch_keeps.
Qed.

Lemma tick_consistent targets s : consistent s → consistent (dispatch_all targets s).
Proof.
  revert s. induction targets as [|T targets IH]; intros s Hs; [done|].
  simpl. apply IH. by apply dispatch_consistent.
Qed.

(** Every target of the tick is either started or counted as skipped. *)
Lemma tick_accounts targets s :
  skipped (dispatch_all targets s) + length (outstanding (dispatch_all targets s))
  = skipped s + length (outstanding s) + length targets.
Proof.
  revert s. induction targets as [|T targets IH]; intros s; simpl; [lia|].
  rewrite IH, dispatch_accounts. lia.
Qed.

(** Over distinct targets, the skips of a tick are the targets whose probe
    was in flight when the tick fired. *)
Lemma tick_skips targets s :
  NoDup (id <$> targets) →
  skipped (dispatch_all targets s)
  = skipped s + length (List.filter (λ T, is_outstanding (id T) s) targets).
Proof.
  revert s. induction targets as [|T targets IH]; intros s; simpl; [lia|].
  rewrite NoDup_cons. intros [HT Hnd]. rewrite IH by done.
  assert (Hsame : List.filter (λ T', is_outstanding (id T') (dispatch (id T) s)) targets
                  = List.filter (λ T', is_outstanding (id T') s) targets).
  { apply List.filter_ext_in. intros T' HT'. apply dispatch_other.
    intros Heq. apply HT. rewrite Heq. apply list_elem_of_fmap.
    exists T'. split; [done|]. by apply list_elem_of_In. }
  rewrite Hsame. destruct (is_outstanding (id T) s) eqn:E.
  - destruct (dispatch_skip _ _ E) as [_ ->]. simpl. lia.
  - destruct (dispatch_start _ _ E) as [_ ->]. lia.
Qed.

(** *** Runs *)

Lemma complete_consistent started r write_ok s s' :
  consistent s → complete started r write_ok s = Some s' → consistent s'.
Proof.
  intros [Hno Hdisp Hfiled Hbefore Hord]. unfold complete.
  destruct (bool_decide _ && bool_decide _) eqn:Hguard; [|done].
  apply andb_true_iff in Hguard as [Hin Hstamp].
  apply bool_decide_eq_true in Hin, Hstamp. intros [= <-].
  assert (Hlog : ∀ T x, x ∈ log T {| now := now s;
                   outstanding := remove_first (target r, started) (outstanding s);
                   skipped := skipped s;
                   store := if write_ok then append r (store s) else store s;
                   published := published s ++ [r] |} →
                 x ∈ log T s ∨ (x = r ∧ T = target r ∧ write_ok = true)).
  { intros T x. destruct write_ok; [|by left].
    rewrite log_append. destruct (decide (T = target r)) as [->|_]; [|by left].
    rewrite elem_of_app, list_elem_of_singleton. intros [H | ->]; [by left|by right]. }
  split; simpl.
  - by apply remove_first_NoDup.
  - intros T t0 Hx%remove_first_subset. by eapply Hdisp.
  - intros T x Hx. apply Hlog in Hx as [Hx|(-> & -> & _)]; [by apply Hfiled|].
    split; [done|lia].
  - intros T t0 x Hout Hx. apply Hlog in Hx as [Hx|(-> & -> & _)].
    + eapply Hbefore; [|done]. by eapply remove_first_subset.
    + exfalso. by eapply (remove_first_gone (target r) started t0).
  - intros T. destruct write_ok; [|apply Hord].
    rewrite log_append. destruct (decide (T = target r)) as [->|_]; [|apply Hord].
    rewrite fmap_app. apply non_decreasing_snoc; [apply Hord|].
    intros a (x & -> & Hx)%list_elem_of_fmap.
    pose proof (Hbefore _ _ _ Hin Hx). lia.
Qed.

Lemma init_consistent : consistent init.
Proof.
  split; simpl.
  - apply NoDup_nil_2.
  - by intros T t0 ?%elem_of_nil.
  - by intros T r ?%elem_of_nil.
  - by intros T t0 r ?%elem_of_nil.
  - intros T i j a b _ Ha. done.
Qed.

Lemma step_consistent e s s' : consistent s → step e s = Some s' → consistent s'.
Proof.
  destruct e as [d|[targets|]|started r write_ok]; simpl.
  - intros [Hno Hdisp Hfiled Hbefore Hord] [= <-]. split; simpl; try done.
    + intros T t0 H. pose proof (Hdisp _ _ H). lia.
    + intros T r H. destruct (Hfiled _ _ H). split; [done|lia].
  - intros Hs [= <-]. by apply tick_consistent.
  - by intros Hs [= <-].
  - intros Hs. by apply complete_consistent.
Qed.

Lemma run_consistent events s s' : consistent s → run events s = Some s' → consistent s'.
Proof.
  revert s. induction events as [|e events IH]; intros s Hs; simpl.
  - by intros [= <-].
  - destruct (step e s) as [s1|] eqn:Hstep; simpl; [|done].
    apply IH. by eapply step_consistent.
Qed.

Lemma reachable_consistent s : reachable s → consistent s.
Proof. intros [events Hrun]. eapply run_consistent; [apply init_consistent|done]. Qed.

(** C6. A target never has two probes outstanding: in every state the
    scheduler can reach, and after any tick from it, the targets of the
    probes in flight are pairwise distinct; a probe still running when the
    tick fires stays the only one of its target (the tick starts no second
    one); and the skip is counted: the dispatch of a target with a probe in
    flight adds one to the skip counter and starts nothing, every target of
    the tick is either started or counted, and over distinct targets the
    counter grows by exactly the number of targets found busy. *)
Theorem no_overlapping_probes (s : state) (targets : list MonitoredTarget) :
  reachable s →
  let s' := tick (Some targets) s in
  no_overlap s ∧ no_overlap s'
  ∧ (∀ T t0, (T, t0) ∈ outstanding s →
             (T, t0) ∈ outstanding s' ∧ ∀ t1, (T, t1) ∈ outstanding s' → t1 = t0)
  ∧ (∀ T, is_outstanding T s = true →
          outstanding (dispatch T s) = outstanding s
          ∧ skipped (dispatch T s) = S (skipped s))
  ∧ skipped s' + length (outstanding s')
    = skipped s + length (outstanding s) + length targets
  ∧ (NoDup (id <$> targets) →
     skipped s'
     = skipped s + length (List.filter (λ T, is_outstanding (id T) s) targets)).
Proof.
  intros Hreach s'. pose proof (reachable_consistent s Hreach) as Hs.
  pose proof (tick_consistent targets s Hs) as Hs'.
  split; [apply Hs|]. split; [apply Hs'|]. split; [|split; [|split]].
  - intros T t0 Hin.
    assert (Hin' : (T, t0) ∈ outstanding s') by by apply tick_keeps.
    split; [done|]. intros t1 H1.
    by eapply (fst_unique (outstanding s')); [apply Hs'| |].
  - intros T. apply dispatch_skip.
  - apply tick_accounts.
  - apply tick_skips.
Qed.

(** Scenario 5 at its second tick: E is busy, nothing is started, and the
    counter goes from 0 to 1. *)
Lemma no_overlapping_probes_witness :
  reachable before_second_tick
  ∧ no_overlap (tick (Some [target_E]) before_second_tick)
  ∧ skipped (tick (Some [target_E]) before_second_tick)
    = skipped before_second_tick + 1.
Proof.
  assert (Hreach : reachable before_second_tick)
    by (exists [Tick (Some [target_E]); Elapse 60]; reflexivity).
  split; [exact Hreach|].
  destruct (no_overlapping_probes before_second_tick [target_E] Hreach)
    as (_ & Hno & _ & _ & _ & Hskips).
  split; [exact Hno|]. apply Hskips. vm_compute. apply NoDup_singleton.
Defined.

(** C7. In every state the scheduler can reach, the timestamps of the
    results stored for a target are non-decreasing in the order of their
    appends; and each append keeps it so: the completed probe's result goes
    to the end of its target's log and is stamped no earlier than any
    result already there. *)
Theorem timestamps_non_decreasing (s : state) :
  reachable s →
  (∀ T, non_decreasing (checked_at <$> log T s))
  ∧ (∀ started r s',
       complete started r true s = Some s' →
       log (target r) s' = log (target r) s ++ [r]
       ∧ (∀ x, x ∈ log (target r) s → checked_at x ≤ checked_at r)
       ∧ ∀ T, non_decreasing (checked_at <$> log T s')).
Proof.
  intros Hreach. pose proof (reachable_consistent s Hreach) as Hs.
  split; [apply Hs|]. intros started r s' Hdone.
  pose proof (complete_consistent _ _ _ _ _ Hs Hdone) as Hs'.
  revert Hdone. unfold complete.
  destruct (bool_decide _ && bool_decide _) eqn:Hguard; [|done].
  apply andb_true_iff in Hguard as [Hin Hstamp].
  apply bool_decide_eq_true in Hin, Hstamp. intros [= <-].
  split; [|split].
  - rewrite log_append. by rewrite decide_True.
  - intros x Hx. pose proof (cons_before s Hs _ _ _ Hin Hx). lia.
  - apply Hs'.
Qed.

(** Scenario 5 and its sequel: the two results of E are in timestamp
    order, 65 then 121. *)
Lemma timestamps_non_decreasing_witness :
  ∃ s, run scenario_5_continued init = Some s
       ∧ (checked_at <$> log 5 s) = [65; 121]
       ∧ non_decreasing (checked_at <$> log 5 s).
Proof.
  eexists. split; [reflexivity|]. split; [reflexivity|].
  refine (proj1 (timestamps_non_decreasing _ _) 5).
  exists scenario_5_continued. reflexivity.
Defined.

(** Scenario 5, run: one skip is counted, and E's late probe is stored and
    published all the same. *)
Example scenario_5_run :
  ∃ s, run scenario_5 init = Some s
       ∧ skipped s = 1 ∧ outstanding s = []
       ∧ (checked_at <$> log 5 s) = [65]
       ∧ (checked_at <$> published s) = [65].
Proof. eexists. split; [reflexivity|]. repeat split; vm_compute; reflexivity. Qed.

End SchedulerFacts.
Module JsCollectionsFacts.
Import Js JsCollections JsFacts.

Lemma float_eqb_sym x y : PrimFloat.eqb x y = PrimFloat.eqb y x.
Proof.
  rewrite !FloatAxioms.eqb_spec.
  destruct (SpecFloat.SFeqb (FloatOps.Prim2SF x) (FloatOps.Prim2SF y)) eqn:E1,
           (SpecFloat.SFeqb (FloatOps.Prim2SF y) (FloatOps.Prim2SF x)) eqn:E2; try done.
  - apply SFeqb_sym in E1. congruence.
  - apply SFeqb_sym in E2. congruence.
Qed.

Lemma float_eqb_trans x y z :
  PrimFloat.eqb x y = true → PrimFloat.eqb y z = true → PrimFloat.eqb x z = true.
Proof. rewrite !FloatAxioms.eqb_spec. apply SFeqb_trans. Qed.

(** A double equal to some double is equal to itself. *)
Lemma float_eqb_refl_l x y : PrimFloat.eqb x y = true → PrimFloat.eqb x x = true.
Proof.
  intros H. apply (float_eqb_trans x y x); [done|]. by rewrite float_eqb_sym.
Qed.

Lemma float_eqb_congr x y z :
  PrimFloat.eqb x y = true → PrimFloat.eqb x z = PrimFloat.eqb y z.
Proof.
  intros H. destruct (PrimFloat.eqb x z) eqn:Ex, (PrimFloat.eqb y z) eqn:Ey; try done.
  - rewrite float_eqb_sym in H. pose proof (float_eqb_trans _ _ _ H Ex). congruence.
  - pose proof (float_eqb_trans _ _ _ H Ey). congruence.
Qed.

Lemma strict_eq_comm a b : strict_eq a b = strict_eq b a.
Proof.
  destruct (strict_eq a b) eqn:E1, (strict_eq b a) eqn:E2; try done.
  - apply strict_eq_sym in E1. congruence.
  - apply strict_eq_sym in E2. congruence.
Qed.

Lemma same_value_zero_refl a : same_value_zero a a = true.
Proof.
  destruct a as [| |b|x|s]; simpl; try done.
  - by destruct b.
  - unfold PrimFloat.is_nan. by destruct (PrimFloat.eqb x x).
  - apply String.eqb_refl.
Qed.

Lemma same_value_zero_comm a b : same_value_zero a b = same_value_zero b a.
Proof.
  destruct a, b; simpl; try done.
  - apply strict_eq_comm with (a := VBool _) (b := VBool _).
  - by rewrite andb_comm, float_eqb_sym.
  - apply String.eqb_sym.
Qed.

(** What a collection stores is the same value as what it was given. *)
Lemma same_value_zero_stored a b : same_value_zero (stored a) b = same_value_zero a b.
Proof.
  destruct a as [| |c|x|s]; simpl; try done.
  destruct (PrimFloat.is_zero x) eqn:Hz; [|done].
  destruct b as [| |c|y|s]; simpl; try done.
  unfold PrimFloat.is_zero in Hz.
  assert (Hxx : PrimFloat.eqb x x = true) by by eapply float_eqb_refl_l.
  assert (Hnan : PrimFloat.is_nan x = false) by (unfold PrimFloat.is_nan; by rewrite Hxx).
  rewrite Hnan. simpl.
  rewrite (float_eqb_congr x PrimFloat.zero y Hz). done.
Qed.

(** A truthy value is stored as it is. *)
Lemma stored_truthy a : truthy a = true → stored a = a.
Proof.
  destruct a as [| |c|x|s]; simpl; try done.
  destruct (PrimFloat.is_zero x); [done|done].
Qed.

Lemma all_distinct_snoc (l : list value) (x : value) :
  all_distinct l → (∀ y, y ∈ l → same_value_zero x y = false) → all_distinct (l ++ [x]).
Proof.
  induction 1 as [|z l Hz Hl IH]; intros Hx; simpl.
  - constructor; [|constructor]. by intros y ?%elem_of_nil.
  - constructor.
    + intros y [Hy| ->%list_elem_of_singleton]%elem_of_app; [by apply Hz|].
      rewrite same_value_zero_comm. apply Hx. apply list_elem_of_here.
    + apply IH. intros y Hy. apply Hx. by apply list_elem_of_further.
Qed.

Lemma all_distinct_filter (p : value → bool) (l : list value) :
  all_distinct l → all_distinct (List.filter p l).
Proof.
  induction 1 as [|z l Hz Hl IH]; simpl; [constructor|].
  destruct (p z); [|done]. constructor; [|done].
  intros y Hy%list_elem_of_In%List.filter_In. apply Hz. apply list_elem_of_In. tauto.
Qed.

Lemma all_distinct_app (l1 l2 : list value) :
  all_distinct l1 → all_distinct l2 →
  (∀ x y, x ∈ l1 → y ∈ l2 → same_value_zero x y = false) →
  all_distinct (l1 ++ l2).
Proof.
  induction 1 as [|z l Hz Hl IH]; intros H2 Hx; simpl; [done|].
  constructor.
  - intros y [Hy|Hy]%elem_of_app; [by apply Hz|]. apply Hx; [apply list_elem_of_here|done].
  - apply IH; [done|]. intros x y Hx' Hy. apply Hx; [by apply list_elem_of_further|done].
Qed.

(** *** [Set] *)

Lemma existsb_false_elem (p : value → bool) (l : list value) :
  existsb p l = false → ∀ y, y ∈ l → p y = false.
Proof.
  intros H y Hy. destruct (p y) eqn:E; [|done].
  assert (existsb p l = true); [|congruence].
  apply List.existsb_exists. exists y. split; [by apply list_elem_of_In|done].
Qed.

Lemma Set_add_all_grows (seen arr : list value) (c : value) :
  c ∈ seen → c ∈ Set_add_all seen arr.
Proof.
  revert seen. induction arr as [|x arr IH]; intros seen Hc; simpl; [done|].
  apply IH. destruct (existsb _ seen); [done|]. apply elem_of_app. by left.
Qed.

Lemma Set_add_all_from (seen arr : list value) (c : value) :
  c ∈ Set_add_all seen arr → c ∈ seen ∨ ∃ x, x ∈ arr ∧ c = stored x.
Proof.
  revert seen. induction arr as [|x arr IH]; intros seen; simpl; [by left|].
  intros [Hc|(y & Hy & ->)]%IH.
  - destruct (existsb _ seen); [by left|].
    apply elem_of_app in Hc as [Hc| ->%list_elem_of_singleton]; [by left|].
    right. exists x. split; [apply list_elem_of_here|done].
  - right. exists y. split; [by apply list_elem_of_further|done].
Qed.

Lemma Set_add_all_covers (seen arr : list value) (x : value) :
  x ∈ arr → ∃ c, c ∈ Set_add_all seen arr ∧ same_value_zero c x = true.
Proof.
  revert seen. induction arr as [|a arr IH]; intros seen; [by intros ?%elem_of_nil|].
  intros [->|Hx]%elem_of_cons; simpl; [|by apply IH].
  destruct (existsb (same_value_zero a) seen) eqn:E.
  - apply List.existsb_exists in E as (c & Hc%list_elem_of_In & Hac).
    exists c. split; [by apply Set_add_all_grows|]. by rewrite same_value_zero_comm.
  - exists (stored a). split.
    + apply Set_add_all_grows. apply elem_of_app. right. apply list_elem_of_here.
    + rewrite same_value_zero_stored. apply same_value_zero_refl.
Qed.

Lemma Set_add_all_distinct (seen arr : list value) :
  all_distinct seen → all_distinct (Set_add_all seen arr).
Proof.
  revert seen. induction arr as [|x arr IH]; intros seen Hseen; simpl; [done|].
  apply IH. destruct (existsb (same_value_zero x) seen) eqn:E; [done|].
  apply all_distinct_snoc; [done|]. intros y Hy.
  rewrite same_value_zero_stored. by apply (existsb_false_elem _ seen).
Qed.

(** *** [sort] *)

(** The computed comparison decides [units_lt]. *)
Lemma units_ltb_spec (u v : list N) : units_ltb u v = true ↔ units_lt u v.
Proof.
  revert v. induction u as [|a u IH]; intros [|b v]; simpl.
  - split; [done|]. inversion 1.
  - split; [constructor|done].
  - split; [done|]. inversion 1.
  - destruct (N.ltb_spec a b) as [Hab|Hab].
    + split; [|done]. intros _. by apply lt_head.
    + destruct (N.ltb_spec b a) as [Hba|Hba].
      * split; [done|]. inversion 1; subst; lia.
      * assert (a = b) as -> by lia. rewrite IH. split.
        -- apply lt_tail.
        -- inversion 1; subst; [lia|done].
Qed.

(** [u < v] spelled out: [v] goes on after a common beginning [p] with a
    code unit [b], where [u] ends or has a smaller code unit. *)
Lemma units_lt_spec (u v : list N) :
  units_lt u v
  ↔ ∃ p b t, v = p ++ b :: t ∧ (u = p ∨ ∃ a s, u = p ++ a :: s ∧ (a < b)%N).
Proof.
  split.
  - induction 1 as [b v|a b u v Hab|a u v _ (p & b & t & -> & IH)].
    + exists [], b, v. split; [done|]. by left.
    + exists [], b, v. split; [done|]. right. by exists a, u.
    + exists (a :: p), b, t. split; [done|].
      destruct IH as [-> | (a' & s & -> & Hlt)]; [by left|].
      right. by exists a', s.
  - intros (p & b & t & -> & H). revert u H.
    induction p as [|x p IH]; intros u [-> | (a & s & -> & Hlt)]; simpl.
    + constructor.
    + by constructor.
    + apply lt_tail, IH. by left.
    + apply lt_tail, IH. right. by exists a, s.
Qed.

(** No string is less than itself, and of two strings one is not less
    than the other. *)
Lemma units_ltb_irrefl (u : list N) : units_ltb u u = false.
Proof. induction u as [|a u IH]; simpl; [done|]. by rewrite N.ltb_irrefl. Qed.

Lemma units_ltb_asym (u v : list N) : units_ltb u v = true → units_ltb v u = false.
Proof.
  revert v. induction u as [|a u IH]; intros [|b v]; simpl; try done.
  destruct (N.ltb_spec a b) as [Hab|Hab].
  - intros _. destruct (N.ltb_spec b a); [lia|]. done.
  - destruct (N.ltb_spec b a) as [Hba|Hba]; [done|]. apply IH.
Qed.

(** The code units of text within the Basic Multilingual Plane and beyond. *)
Example utf16_ascii : utf16 "Az" = [65; 122]%N.
Proof. reflexivity. Qed.

Example utf16_latin : utf16 "é" = [233]%N.
Proof. reflexivity. Qed.

Example utf16_fullwidth : utf16 "～" = [65374]%N.
Proof. reflexivity. Qed.

Example utf16_surrogates : utf16 "😀" = [55357; 56832]%N.
Proof. reflexivity. Qed.

Section SortFacts.
Variable ToString : value → string.

Lemma sort_le_total (x z : value) :
  sort_le ToString x z = false → sort_le ToString z x = true.
Proof.
  unfold sort_le. intros H%negb_false_iff. by rewrite (units_ltb_asym _ _ H).
Qed.

Lemma sort_insert_elem (x y : value) (l : list value) :
  y ∈ sort_insert ToString x l ↔ y = x ∨ y ∈ l.
Proof.
  induction l as [|z l IH]; simpl.
  - rewrite list_elem_of_singleton. rewrite elem_of_nil. tauto.
  - destruct (sort_le ToString x z).
    + by rewrite elem_of_cons.
    + rewrite !elem_of_cons, IH. tauto.
Qed.

Lemma stable_sort_elem (y : value) (l : list value) :
  y ∈ stable_sort ToString l ↔ y ∈ l.
Proof.
  induction l as [|z l IH]; simpl; [done|].
  rewrite sort_insert_elem, elem_of_cons, IH. tauto.
Qed.

Lemma sort_insert_sorted (x : value) (l : list value) :
  Sorted (in_order ToString) l → Sorted (in_order ToString) (sort_insert ToString x l).
Proof.
  induction 1 as [|z l Hl IH Hhd]; simpl.
  - by repeat constructor.
  - destruct (sort_le ToString x z) eqn:E.
    + constructor; [by constructor|]. by constructor.
    + constructor; [done|].
      assert (Hzx : in_order ToString z x) by (by apply sort_le_total).
      destruct Hhd as [|w l Hw]; simpl; [by constructor|].
      destruct (sort_le ToString x w); by constructor.
Qed.

Lemma stable_sort_sorted (l : list value) : Sorted (in_order ToString) (stable_sort ToString l).
Proof.
  induction l as [|z l IH]; simpl; [constructor|]. by apply sort_insert_sorted.
Qed.

Lemma sort_insert_distinct (x : value) (l : list value) :
  all_distinct l → (∀ y, y ∈ l → same_value_zero x y = false) →
  all_distinct (sort_insert ToString x l).
Proof.
  induction 1 as [|z l Hz Hl IH]; intros Hx; simpl.
  - by constructor; [|constructor].
  - destruct (sort_le ToString x z).
    + constructor; [done|]. by constructor.
    + constructor.
      * intros y [->|Hy]%sort_insert_elem; [|by apply Hz].
        rewrite same_value_zero_comm. apply Hx. apply list_elem_of_here.
      * apply IH. intros y Hy. apply Hx. by apply list_elem_of_further.
Qed.

Lemma stable_sort_distinct (l : list value) :
  all_distinct l → all_distinct (stable_sort ToString l).
Proof.
  induction 1 as [|z l Hz Hl IH]; simpl; [constructor|].
  apply sort_insert_distinct; [done|]. intros y Hy.
  apply Hz. by apply (stable_sort_elem y l).
Qed.

(** Two neighbours of a sorted array: the string of the second one is not
    less than the string of the first one. *)
Lemma in_order_spec (a b : value) :
  in_order ToString a b
  ↔ ¬ ∃ p c t, utf16 (ToString a) = p ++ c :: t
               ∧ (utf16 (ToString b) = p
                  ∨ ∃ c' s, utf16 (ToString b) = p ++ c' :: s ∧ (c' < c)%N).
Proof.
  unfold in_order, sort_le. rewrite negb_true_iff, <- units_lt_spec, <- units_ltb_spec.
  by destruct (units_ltb _ _).
Qed.

Lemma sorted_by_code_units (l : list value) :
  Sorted (in_order ToString) l →
  Sorted (λ a b, ¬ ∃ p c t, utf16 (ToString a) = p ++ c :: t
                            ∧ (utf16 (ToString b) = p
                               ∨ ∃ c' s, utf16 (ToString b) = p ++ c' :: s ∧ (c' < c)%N)) l.
Proof.
  induction 1 as [|z l Hl IH Hhd]; constructor; [done|].
  destruct Hhd as [|w l Hw]; constructor. by apply in_order_spec.
Qed.

(** Without [undefined] elements the default sort is the stable sort. *)
Lemma sort_defined (l : list value) :
  (∀ y, y ∈ l → is_undefined y = false) → sort ToString l = stable_sort ToString l.
Proof.
  intros H. unfold sort.
  assert (H1 : List.filter (λ v, negb (is_undefined v)) l = l).
  { induction l as [|z l IH]; simpl; [done|].
    rewrite (H z) by apply list_elem_of_here. simpl.
    rewrite IH; [done|]. intros y Hy. apply H. by apply list_elem_of_further. }
  assert (H2 : List.filter is_undefined l = []).
  { clear H1. induction l as [|z l IH]; simpl; [done|].
    rewrite (H z) by apply list_elem_of_here.
    apply IH. intros y Hy. apply H. by apply list_elem_of_further. }
  rewrite H1, H2. apply app_nil_r.
Qed.

(** On strings the comparison is the one of their code units. *)
Lemma sort_le_strings (a b : string) :
  (∀ s, ToString (VStr s) = s) →
  sort_le ToString (VStr a) (VStr b) = negb (units_ltb (utf16 b) (utf16 a)).
Proof. intros H. unfold sort_le. by rewrite !H. Qed.

(** The order is the one of the code units, not of the code points: the
    emoji U+1F600, whose first code unit is the surrogate D83D, stands
    before the full-width tilde U+FF5E; capitals stand before small
    letters, a prefix before its extensions; [undefined] stands last. *)
Example sort_by_code_units :
  (∀ s, ToString (VStr s) = s) →
  sort ToString [VStr "～ team"; VUndefined; VStr "alpha"; VStr "😀 team"; VStr "Zeta"; VStr "alp"]
  = [VStr "Zeta"; VStr "alp"; VStr "alpha"; VStr "😀 team"; VStr "～ team"; VUndefined].
Proof.
  intros H. unfold sort. cbn [List.filter is_undefined negb app stable_sort].
  repeat (cbn [sort_insert]; rewrite ?(sort_le_strings _ _ H);
          match goal with
          | |- context [negb (units_ltb ?u ?v)] =>
              let b := eval vm_compute in (negb (units_ltb u v)) in
              change (negb (units_ltb u v)) with b
          end; cbn iota).
  reflexivity.
Qed.

End SortFacts.
End JsCollectionsFacts.

Module AppViewsFacts.
Import Js App JsCollections AppViews LiveStatus JsFacts JsCollectionsFacts.

Lemma elem_of_filter_bool {A} (p : A → bool) (l : list A) (x : A) :
  x ∈ List.filter p l ↔ x ∈ l ∧ p x = true.
Proof. rewrite !list_elem_of_In. apply List.filter_In. Qed.

Lemma filter_bool_sublist {A} (p : A → bool) (l : list A) : sublist (List.filter p l) l.
Proof.
  induction l as [|x l IH]; simpl; [constructor|].
  destruct (p x); by constructor.
Qed.

Lemma strict_eq_str (v : value) (s : string) : strict_eq v (VStr s) = true ↔ v = VStr s.
Proof.
  destruct v; simpl; try (split; [discriminate|discriminate]).
  rewrite String.eqb_eq. split; [by intros ->|by intros [= ->]].
Qed.

(** X1. The filtered view holds exactly the cached URLs of the active
    environment, narrowed to the active category when one is selected, in
    the order of the cache; with no category selected and one of the three
    tab environments active it is that environment's bucket of
    [getUrlsByEnvironment]. *)
Theorem getFilteredUrls_selects
    (cache : healthcheckCache) (activeEnvironment activeCategory : value) :
  let shown := getFilteredUrls cache activeEnvironment activeCategory in
  (∀ url, url ∈ shown ↔
          url ∈ urls cache
          ∧ strict_eq (get url "environment") activeEnvironment = true
          ∧ (truthy activeCategory = true →
             strict_eq (get url "project_category") activeCategory = true))
  ∧ sublist shown (urls cache)
  ∧ (truthy activeCategory = false →
     (activeEnvironment = VStr "production" → shown = production (getUrlsByEnvironment cache))
     ∧ (activeEnvironment = VStr "development" → shown = development (getUrlsByEnvironment cache))
     ∧ (activeEnvironment = VStr "staging" → shown = staging (getUrlsByEnvironment cache))).
Proof.
  intros shown. subst shown. unfold getFilteredUrls, in_environment.
  destruct (truthy activeCategory) eqn:Hcat.
  - split; [|split; [|done]].
    + intros url. rewrite !elem_of_filter_bool. tauto.
    + etrans; apply filter_bool_sublist.
  - split; [|split].
    + intros url. rewrite elem_of_filter_bool. intuition congruence.
    + apply filter_bool_sublist.
    + intros _. by repeat split; intros ->.
Qed.

(** X2. The three buckets of [getUrlsByEnvironment] hold the URLs of their
    environment and nothing else, so no URL is in two of them; a URL whose
    environment is none of the three is in no bucket; and the sizes of the
    buckets add up to the number of URLs that have one of the three
    environments. *)
Theorem getUrlsByEnvironment_partitions (cache : healthcheckCache) :
  let buckets := getUrlsByEnvironment cache in
  (∀ url, url ∈ production buckets ↔
          url ∈ urls cache ∧ get url "environment" = VStr "production")
  ∧ (∀ url, url ∈ development buckets ↔
            url ∈ urls cache ∧ get url "environment" = VStr "development")
  ∧ (∀ url, url ∈ staging buckets ↔
            url ∈ urls cache ∧ get url "environment" = VStr "staging")
  ∧ (∀ url, has_bucket url = false →
            (url ∉ production buckets) ∧ (url ∉ development buckets)
            ∧ (url ∉ staging buckets))
  ∧ length (production buckets) + length (development buckets) + length (staging buckets)
    = length (List.filter has_bucket (urls cache)).
Proof.
  intros buckets. subst buckets. unfold getUrlsByEnvironment, in_environment. simpl.
  split; [|split; [|split; [|split]]].
  - intros url. by rewrite elem_of_filter_bool, strict_eq_str.
  - intros url. by rewrite elem_of_filter_bool, strict_eq_str.
  - intros url. by rewrite elem_of_filter_bool, strict_eq_str.
  - intros url Hnone. unfold has_bucket in Hnone.
    apply orb_false_iff in Hnone as [Hnone Hs]. apply orb_false_iff in Hnone as [Hp Hd].
    rewrite !elem_of_filter_bool. intuition congruence.
  - induction (urls cache) as [|url rest IH]; simpl; [done|].
    unfold has_bucket at 1.
    destruct (get url "environment") as [| |b|x|s]; simpl; try apply IH.
    destruct (String.eqb_spec s "production") as [->|Hp]; simpl; [lia|].
    destruct (String.eqb_spec s "development") as [->|Hd]; simpl; [lia|].
    destruct (String.eqb_spec s "staging") as [->|Hs]; simpl; lia.
Qed.

Section Categories.
Variable ToString : value → string.

(** X3. The category tabs: [getCategories] returns truthy categories only, each
    the [project_category] of some URL of the active environment; every
    truthy category of such a URL is among them; no category is listed
    twice; and the list is in the order of the categories as strings of
    UTF-16 code units: of two neighbours the second is never less than
    the first, that is, never a proper beginning of it, nor different
    from it first at a place where it has the smaller code unit. *)
Theorem getCategories_distinct_sorted
    (cache : healthcheckCache) (activeEnvironment : value) :
  let less := λ u v : list N,
    ∃ p b t, v = p ++ b :: t ∧ (u = p ∨ ∃ a s, u = p ++ a :: s ∧ (a < b)%N) in
  let categories := getCategories ToString cache activeEnvironment in
  (∀ c, c ∈ categories →
        truthy c = true
        ∧ ∃ url, url ∈ urls cache
                 ∧ strict_eq (get url "environment") activeEnvironment = true
                 ∧ get url "project_category" = c)
  ∧ (∀ url, url ∈ urls cache →
            strict_eq (get url "environment") activeEnvironment = true →
            truthy (get url "project_category") = true →
            ∃ c, c ∈ categories ∧ same_value_zero c (get url "project_category") = true)
  ∧ all_distinct categories
  ∧ Sorted (λ a b, ¬ less (utf16 (ToString b)) (utf16 (ToString a))) categories.
Proof.
  intros less categories. subst less categories. unfold getCategories.
  set (raw := List.filter truthy
                (map (λ url, get url "project_category")
                     (in_environment activeEnvironment (urls cache)))).
  assert (Hraw : ∀ c, c ∈ raw ↔
            truthy c = true
            ∧ ∃ url, url ∈ urls cache
                     ∧ strict_eq (get url "environment") activeEnvironment = true
                     ∧ get url "project_category" = c).
  { intros c. subst raw. rewrite elem_of_filter_bool.
    change (map ?f ?l) with (f <$> l). rewrite list_elem_of_fmap.
    unfold in_environment. split.
    - intros [(url & -> & Hurl) Hc]. apply elem_of_filter_bool in Hurl as [Hin Henv].
      split; [done|]. by exists url.
    - intros [Hc (url & Hin & Henv & <-)]. split; [|done].
      exists url. split; [done|]. by apply elem_of_filter_bool. }
  assert (Hset : ∀ c, c ∈ Set_spread raw → c ∈ raw).
  { intros c [Hc|(x & Hx & ->)]%Set_add_all_from; [by apply elem_of_nil in Hc|].
    rewrite stored_truthy; [done|]. by apply Hraw. }
  assert (Hdefined : ∀ y, y ∈ Set_spread raw → is_undefined y = false).
  { intros y Hy%Hset%Hraw. destruct Hy as [Hy _]. by destruct y. }
  rewrite (sort_defined ToString _ Hdefined).
  split; [|split; [|split]].
  - intros c Hc. apply Hraw, Hset. by apply (stable_sort_elem ToString c).
  - intros url Hin Henv Hcat.
    destruct (Set_add_all_covers [] raw (get url "project_category")) as (c & Hc & Hsame).
    { apply Hraw. split; [done|]. by exists url. }
    exists c. split; [|done]. by apply stable_sort_elem.
  - apply stable_sort_distinct, Set_add_all_distinct. constructor.
  - apply sorted_by_code_units, stable_sort_sorted.
Qed.

(** The tabs of three production URLs of two categories and one URL with
    the empty category: the emoji stands before the full-width tilde, as
    their code units D83D and FF5E do. *)
Example categories_by_code_units :
  (∀ s, ToString (VStr s) = s) →
  let url := λ category : string,
    ({[ "environment" := VStr "production"; "project_category" := VStr category ]} : obj) in
  getCategories ToString
    (Cache [url "～ team"; url "😀 team"; url "～ team"; url ""] [] [] VNull (VBool false))
    (VStr "production")
  = [VStr "😀 team"; VStr "～ team"].
Proof.
  intros H url. unfold getCategories.
  match goal with
  | |- context [Set_spread ?l] =>
      let r := eval vm_compute in (Set_spread l) in
      change (Set_spread l) with r
  end.
  unfold sort. cbn [List.filter is_undefined negb app stable_sort].
  repeat (cbn [sort_insert]; rewrite ?(sort_le_strings _ _ _ H);
          match goal with
          | |- context [negb (units_ltb ?u ?v)] =>
              let b := eval vm_compute in (negb (units_ltb u v)) in
              change (negb (units_ltb u v)) with b
          end; cbn iota).
  reflexivity.
Qed.

(** X4. Changing the environment drops the category filter and is remembered:
    right after [handleEnvironmentChange] the page shows every URL of the
    new environment, and a reload starts in the saved environment, as the
    string [setItem] stored, with no category; only an environment that is
    stored as the empty string is not restored (the page then starts in
    "production").  The saved section is untouched. *)
Theorem environment_change_round_trip
    (cache : healthcheckCache) (environment : value)
    (s : selection) (storage : localStorage) :
  let changed := handleEnvironmentChange ToString environment (s, storage) in
  let reloaded := initial_selection changed.2 in
  getFilteredUrls cache (activeEnvironment changed.1) (activeCategory changed.1)
  = in_environment environment (urls cache)
  ∧ activeSection changed.1 = activeSection s
  ∧ activeEnvironment reloaded
    = (if String.eqb (ToString environment) "" then VStr "production"
       else VStr (ToString environment))
  ∧ activeCategory reloaded = VNull
  ∧ activeSection reloaded = activeSection (initial_selection storage).
Proof.
  intros changed reloaded. subst changed reloaded. simpl.
  repeat split.
  - unfold initial_selection, getItem; simpl. rewrite lookup_insert_eq.
    unfold js_or; simpl. by destruct (String.eqb (ToString environment) "").
  - unfold initial_selection, getItem; simpl. by rewrite lookup_insert_ne.
Qed.

End Categories.
End AppViewsFacts.
Module LiveStatusFacts.
Import Js App AppViews LiveStatus JsFacts AppFacts.

Section Find.
Context {A : Type} (p : A → bool).

Lemma find_ext (q : A → bool) (l : list A) :
  (∀ x, p x = q x) → find p l = find q l.
Proof. intros H. induction l as [|x l IH]; simpl; [done|]. by rewrite H, IH. Qed.

Lemma find_snoc_other (l : list A) (e : A) :
  p e = false → find p (l ++ [e]) = find p l.
Proof.
  intros He. induction l as [|x l IH]; simpl; [by rewrite He|].
  by destruct (p x).
Qed.

Lemma find_snoc_new (l : list A) (e : A) :
  (∀ x, x ∈ l → p x = false) → p e = true → find p (l ++ [e]) = Some e.
Proof.
  intros Hl He. induction l as [|x l IH]; simpl; [by rewrite He|].
  rewrite (Hl x) by apply list_elem_of_here.
  apply IH. intros y Hy. apply Hl. by apply list_elem_of_further.
Qed.

Lemma find_insert_other (l : list A) (i : nat) (h e : A) :
  l !! i = Some h → p h = false → p e = false → find p (<[i := e]> l) = find p l.
Proof.
  revert i. induction l as [|x l IH]; intros i; [done|].
  destruct i as [|i]; simpl.
  - intros [= ->] -> ->. done.
  - intros Hi Hh He. rewrite (IH i) by done. done.
Qed.

Lemma find_insert_first (l : list A) (i : nat) (e : A) :
  i < length l → (∀ j y, j < i → l !! j = Some y → p y = false) → p e = true →
  find p (<[i := e]> l) = Some e.
Proof.
  revert i. induction l as [|x l IH]; intros i; simpl; [lia|].
  destruct i as [|i]; simpl.
  - intros _ _ ->. done.
  - intros Hi Hfirst He. rewrite (Hfirst 0 x) by (done || lia).
    apply IH; [lia| |done]. intros j y Hj Hy. apply (Hfirst (S j)); [lia|done].
Qed.

End Find.

Lemma receive_app frames1 frames2 cache :
  receive (frames1 ++ frames2) cache
  = match receive frames1 cache with
    | Normal mid => receive frames2 mid
    | Abrupt e => Abrupt e
    end.
Proof.
  revert cache. induction frames1 as [|[now f] frames1 IH]; intros cache; simpl; [done|].
  destruct (handleWebSocketMessage now f cache); [apply IH|done].
Qed.

Lemma receive_cons now f frames cache :
  receive ((now, f) :: frames) cache
  = match handleWebSocketMessage now f cache with
    | Normal next => receive frames next
    | Abrupt e => Abrupt e
    end.
Proof. done. Qed.

(** After a frame for the URL, the first entry for the URL is the frame's. *)
Lemma pushed_entry_is_first (now : value) (data : obj) (urlId : value)
    (prev next : healthcheckCache) :
  strict_eq (get data "url_id") urlId = true →
  handleWebSocketMessage now (health_update data) prev = Normal next →
  find (λ h, strict_eq (get h "url_id") urlId) (healthStatuses next)
  = Some (health_entry data).
Proof.
  intros Hid Hrun.
  destruct (handle_health_update now data prev) as (next' & Hrun' & _ & _ & _ & _ & Hnext).
  rewrite Hrun in Hrun'. injection Hrun' as <-.
  set (q := λ h : obj, strict_eq (get h "url_id") (get data "url_id")) in *.
  assert (Hsame : ∀ h : obj, strict_eq (get h "url_id") urlId = q h).
  { intros h. unfold q.
    destruct (strict_eq (get h "url_id") urlId) eqn:E1,
             (strict_eq (get h "url_id") (get data "url_id")) eqn:E2; try done.
    - pose proof (strict_eq_trans _ _ _ E1 (strict_eq_sym _ _ Hid)). congruence.
    - pose proof (strict_eq_trans _ _ _ E2 Hid). congruence. }
  rewrite (find_ext _ q) by done.
  assert (Hentry : q (health_entry data) = true).
  { unfold q. rewrite get_health_entry by apply list_elem_of_here.
    eapply strict_eq_trans; [done|]. by apply strict_eq_sym. }
  rewrite Hnext. destruct (findIndex q (healthStatuses prev)) as [i|] eqn:Hfind.
  - destruct (findIndex_Some _ _ _ Hfind) as (h & Hi & _ & Hfirst).
    apply find_insert_first; [by eapply lookup_lt_Some|done|done].
  - apply find_snoc_new; [|done]. by apply findIndex_None.
Qed.

(** A frame that is not about the URL leaves the URL's first entry alone. *)
Lemma other_frame_keeps_first (now : value) (f : WebSocketService.message)
    (urlId : value) (prev next : healthcheckCache) :
  is_about urlId f = false →
  handleWebSocketMessage now f prev = Normal next →
  find (λ h, strict_eq (get h "url_id") urlId) (healthStatuses next)
  = find (λ h, strict_eq (get h "url_id") urlId) (healthStatuses prev).
Proof.
  destruct f as [ty data]. unfold is_about, handleWebSocketMessage; simpl.
  destruct (strict_eq ty (VStr "health_update")) eqn:Hty; simpl;
    [|by intros _ [= <-]].
  destruct data as [data|]; [|done]. intros Hid.
  unfold health_update_updater; simpl. intros [= <-]; simpl.
  set (q := λ h : obj, strict_eq (get h "url_id") (get data "url_id")).
  assert (Hentry : strict_eq (get (health_entry data) "url_id") urlId = false)
    by by rewrite get_health_entry by apply list_elem_of_here.
  destruct (findIndex q (healthStatuses prev)) as [i|] eqn:Hfind.
  - destruct (findIndex_Some _ _ _ Hfind) as (h & Hi & Hq & _).
    apply (find_insert_other _ _ i h); [done| |done].
    destruct (strict_eq (get h "url_id") urlId) eqn:E; [|done].
    unfold q in Hq. apply strict_eq_sym in Hq.
    pose proof (strict_eq_trans _ _ _ Hq E). congruence.
  - by apply find_snoc_other.
Qed.

(** X5. The table shows the latest push: when a run of frames went through the
    handler without an exception, the status [getHealthStatus] reports for
    a URL is the [status] of the last [health_update] frame that was about
    that URL (or "offline" when that status is missing or falsy), whatever
    the cache held before and whatever frames about other URLs, or of other
    types, came before and after. *)
Theorem table_shows_latest_push
    (prev final : healthcheckCache)
    (before later : list (value * WebSocketService.message))
    (now : value) (data : obj) (urlId : value) :
  strict_eq (get data "url_id") urlId = true →
  (∀ f, f ∈ later → is_about urlId f.2 = false) →
  receive (before ++ (now, health_update data) :: later) prev = Normal final →
  URLTable.getHealthStatus (healthStatuses final) urlId
  = js_or (get data "status") (VStr "offline").
Proof.
  intros Hid Hlater. rewrite receive_app.
  destruct (receive before prev) as [mid|]; [|done].
  rewrite receive_cons.
  destruct (handleWebSocketMessage now (health_update data) mid) as [pushed|] eqn:Hpush;
    [|done].
  pose proof (pushed_entry_is_first _ _ _ _ _ Hid Hpush) as Hfirst.
  clear Hpush. revert pushed Hfirst.
  induction later as [|[now' f] later IH]; intros pushed Hfirst.
  - intros [= Heq]. subst. unfold URLTable.getHealthStatus. cbv zeta. rewrite Hfirst.
    by rewrite get_health_entry by (apply list_elem_of_further; apply list_elem_of_here).
  - rewrite receive_cons.
    destruct (handleWebSocketMessage now' f pushed) as [next|] eqn:Hstep; [|done].
    apply IH.
    + intros g Hg. apply Hlater. by apply list_elem_of_further.
    + rewrite <- Hfirst. eapply other_frame_keeps_first; [|done].
      apply (Hlater (now', f)). apply list_elem_of_here.
Qed.

Lemma table_shows_latest_push_witness :
  ∃ final,
    receive sample_frames initial_cache = Normal final
    ∧ URLTable.getHealthStatus (healthStatuses final) (VNum (float_of_Z 1)) = VStr "offline".
Proof.
  eexists. split; [reflexivity|].
  refine (table_shows_latest_push initial_cache _
            [(VNull, health_update (url_id_payload (float_of_Z 1) "online"))]
            [(VNull, health_update (url_id_payload (float_of_Z 2) "online"));
             (VNull, WebSocketService.Message (VStr "gpu_update") None)]
            VNull (url_id_payload (float_of_Z 1) "offline") (VNum (float_of_Z 1))
            _ _ _).
  - vm_compute. reflexivity.
  - intros f Hf.
    apply elem_of_cons in Hf as [->|Hf]; [vm_compute; reflexivity|].
    apply list_elem_of_singleton in Hf as ->. vm_compute. reflexivity.
  - vm_compute. reflexivity.
Defined.

End LiveStatusFacts.

Module URLTableViewFacts.
Import Js URLTable URLTableView JsFacts.

Section ViewFacts.
Variable ToString : value → string.

Lemma initial_toggles_fold (urls : list obj) (states : toggleStates) (k : string) :
  k ∉ key_of ToString <$> urls →
  foldl (λ states url,
           <[ToString (get url "id")
               := VBool (strict_eq (get url "health_check_status") (VStr "YES"))]> states)
        states urls !! k = states !! k.
Proof.
  revert states. induction urls as [|url urls IH]; intros states; simpl; [done|].
  rewrite not_elem_of_cons. intros [Hne Hk]. rewrite IH by done.
  apply lookup_insert_ne. by intros <-.
Qed.

Lemma initial_toggles_lookup (urls : list obj) (states : toggleStates) (url : obj) :
  NoDup (key_of ToString <$> urls) → url ∈ urls →
  foldl (λ states url,
           <[ToString (get url "id")
               := VBool (strict_eq (get url "health_check_status") (VStr "YES"))]> states)
        states urls !! key_of ToString url
  = Some (VBool (strict_eq (get url "health_check_status") (VStr "YES"))).
Proof.
  revert states. induction urls as [|u urls IH]; intros states; simpl;
    [by intros _ ?%elem_of_nil|].
  rewrite NoDup_cons. intros [Hu Hnd] [->|Hin]%elem_of_cons.
  - rewrite initial_toggles_fold by done. apply lookup_insert_eq.
  - by apply IH.
Qed.

(** X6. The rows follow the URLs' own flag: when the URLs have distinct ids, the
    toggle states built from them make the row of each URL show the health
    badge, the timeline and a checked switch exactly when the URL's
    [health_check_status] is 'YES', and "Disabled", "N/A" and an unchecked
    switch otherwise; and no toggle entry is left for an id that is not in
    the list. *)
Theorem rows_follow_health_check_status
    (urls healthStatuses servers : list obj) (url : obj) :
  NoDup (key_of ToString <$> urls) → url ∈ urls →
  let toggles := initial_toggles ToString urls in
  let enabled := strict_eq (get url "health_check_status") (VStr "YES") in
  let shown := render_row ToString toggles healthStatuses servers url in
  status shown
  = (if enabled then Badge (getHealthStatus healthStatuses (get url "id")) else DisabledText)
  ∧ timeline shown = (if enabled then TimelineOf (get url "id") else NotApplicable)
  ∧ checked shown = VBool enabled
  ∧ (∀ k, k ∉ key_of ToString <$> urls → toggles !! k = None).
Proof.
  intros Hnd Hin toggles enabled shown.
  assert (Hget : get toggles (ToString (get url "id")) = VBool enabled).
  { subst toggles. unfold initial_toggles, get.
    by rewrite (initial_toggles_lookup urls ∅ url Hnd Hin). }
  subst shown. unfold render_row; simpl. rewrite Hget. simpl.
  split; [done|]. split; [done|]. split; [by destruct enabled|].
  intros k Hk. subst toggles. unfold initial_toggles.
  by rewrite initial_toggles_fold.
Qed.


(** X8. A refresh that fails after an accepted PATCH is handled as a failed
    toggle: the request was sent, and still the handler writes the shown
    state back and raises the alert, so that afterwards every entry reads
    as before the click. *)
Theorem refresh_failure_reverts_toggle
    (e : error) (urlId : value) (shown : toggleStates) :
  let key := ToString urlId in
  let effects := onChange ToString (Some (Abrupt e)) (Normal tt) shown urlId in
  (∃ body, ApiPatch ("/api/urls/" +:+ key +:+ "/health-check") body ∈ effects)
  ∧ OnRefresh ∈ effects
  ∧ Alert "Failed to toggle health check" ∈ effects
  ∧ (∀ k, get (apply_updates effects shown) k = get shown k).
Proof.
  intros key effects. subst effects. unfold onChange, handleToggleHealthCheck, on_error.
  fold key. split; [|split; [|split]].
  - eexists. apply list_elem_of_further, list_elem_of_here.
  - do 3 apply list_elem_of_further. apply list_elem_of_here.
  - do 6 apply list_elem_of_further. apply list_elem_of_here.
  - intros k. simpl. unfold get. destruct (decide (key = k)) as [<-|Hk].
    + by rewrite lookup_insert_eq.
    + by rewrite !lookup_insert_ne.
Qed.

End ViewFacts.

Lemma rows_follow_health_check_status_witness :
  status (render_row string_id (initial_toggles string_id sample_urls) [] []
            {[ "id" := VStr "2"; "health_check_status" := VStr "NO";
               "server_id" := VStr "s9" ]})
  = DisabledText.
Proof.
  refine (proj1 (rows_follow_health_check_status string_id sample_urls [] []
                   {[ "id" := VStr "2"; "health_check_status" := VStr "NO";
                      "server_id" := VStr "s9" ]} _ _)).
  - vm_compute. apply NoDup_cons. split; [|apply NoDup_singleton].
    intros H%list_elem_of_singleton. discriminate H.
  - apply list_elem_of_further, list_elem_of_here.
Defined.

End URLTableViewFacts.

Module HealthTimelineLoaderFacts.
Import Js JsCollections HealthTimeline HealthTimelineLoader JsFacts JsCollectionsFacts.

Lemma float_not_nan_of_eqb x y : PrimFloat.eqb x y = true → PrimFloat.is_nan x = false.
Proof.
  intros H. unfold PrimFloat.is_nan. by rewrite (float_eqb_refl_l x y H).
Qed.

Lemma same_value_zero_trans a b c :
  same_value_zero a b = true → same_value_zero b c = true → same_value_zero a c = true.
Proof.
  destruct a as [| |ba|x|sa], b as [| |bb|y|sb]; simpl; try done;
    destruct c as [| |bc|z|sc]; simpl; try done.
  - intros ?%Bool.eqb_prop ?%Bool.eqb_prop. subst. apply Bool.eqb_reflx.
  - intros Hxy Hyz.
    apply orb_true_iff in Hxy as [[Hx Hy]%andb_true_iff|Hxy];
      apply orb_true_iff in Hyz as [[Hy' Hz]%andb_true_iff|Hyz].
    + by rewrite Hx, Hz.
    + rewrite (float_not_nan_of_eqb y z) in Hy by done. done.
    + rewrite float_eqb_sym in Hxy.
      rewrite (float_not_nan_of_eqb y x) in Hy' by done. done.
    + rewrite (float_eqb_trans x y z) by done. apply orb_true_r.
  - intros ?%String.eqb_eq ?%String.eqb_eq. subst. apply String.eqb_refl.
Qed.

Section MapFacts.
Context {V : Type}.

Lemma Map_get_set_same (key : value) (v : V) (m : list (value * V)) :
  Map_get key (Map_set key v m) = Some v.
Proof.
  unfold Map_get. induction m as [|[k old] m IH]; simpl.
  - rewrite same_value_zero_stored. by rewrite same_value_zero_refl.
  - destruct (same_value_zero k key) eqn:E; simpl; rewrite E; [done|apply IH].
Qed.

Lemma Map_get_set_other (key other : value) (v : V) (m : list (value * V)) :
  same_value_zero key other = false →
  Map_get other (Map_set key v m) = Map_get other m.
Proof.
  intros Hne. unfold Map_get. induction m as [|[k old] m IH]; simpl.
  - rewrite same_value_zero_stored. by rewrite Hne.
  - destruct (same_value_zero k key) eqn:E; simpl.
    + assert (same_value_zero k other = false) as ->; [|done].
      destruct (same_value_zero k other) eqn:E'; [|done].
      rewrite same_value_zero_comm in E.
      pose proof (same_value_zero_trans _ _ _ E E'). congruence.
    + destruct (same_value_zero k other); [done|]. apply IH.
Qed.

End MapFacts.

(** X9. The history cache round trip: once a mounted component has received a
    response, any load of the same URL whose clock reading is less than
    [CACHE_DURATION] after the reading of that request is served from the
    cache: no request is made, a mounted component gets the cached rows
    with the loading flag cleared, and an unmounted one is left alone. The
    cached history of every other URL is what it was. *)
Theorem history_cache_round_trip
    (started again : PrimFloat.float) (urlId : value) (rows : list obj)
    (cache : healthHistoryCache) (c later : component) :
  isMounted c = true →
  PrimFloat.ltb (PrimFloat.sub again started) CACHE_DURATION = true →
  let cache' := (loadHistory_finish started urlId (Normal rows) cache c).1.1 in
  loadHistory_start again urlId cache' later
  = Returned (if isMounted later
              then {| history := rows; loading := false; isMounted := true |}
              else later)
  ∧ (∀ other, same_value_zero urlId other = false →
              Map_get other cache' = Map_get other cache).
Proof.
  intros Hm Hfresh cache'. subst cache'. unfold loadHistory_finish. rewrite Hm. simpl.
  split.
  - unfold loadHistory_start. rewrite Map_get_set_same. simpl. rewrite Hfresh.
    by destruct (isMounted later) eqn:E.
  - intros other Hother. by apply Map_get_set_other.
Qed.

Lemma history_cache_round_trip_witness :
  loadHistory_start t1 (VNum (float_of_Z 1))
    (loadHistory_finish t0 (VNum (float_of_Z 1)) (Normal two_checks) [] mount).1.1 mount
  = Returned {| history := two_checks; loading := false; isMounted := true |}.
Proof.
  refine (proj1 (history_cache_round_trip t0 t1 (VNum (float_of_Z 1)) two_checks
                   [] mount mount _ _)); vm_compute; reflexivity.
Defined.

(** A load that has to ask the server: with no cached history, or with one
    at least [CACHE_DURATION] old by the clock, [loadHistory] makes the
    request; the loading text is switched on only when nothing is cached
    (a stale history stays on screen while the request runs), and an
    unmounted component is never written to. *)
Theorem stale_or_missing_history_is_fetched
    (now : PrimFloat.float) (urlId : value)
    (cache : healthHistoryCache) (c : component) :
  (Map_get urlId cache = None →
   loadHistory_start now urlId cache c
   = Awaiting (if isMounted c
               then {| history := history c; loading := true; isMounted := true |}
               else c))
  ∧ (∀ entry, Map_get urlId cache = Some entry →
       PrimFloat.ltb (PrimFloat.sub now (timestamp entry)) CACHE_DURATION = false →
       loadHistory_start now urlId cache c = Awaiting c)
  ∧ (isMounted c = false →
     ∃ p, (p = Awaiting c ∨ p = Returned c) ∧ loadHistory_start now urlId cache c = p).
Proof.
  unfold loadHistory_start. split; [|split].
  - intros ->. by destruct (isMounted c) eqn:E.
  - intros entry -> ->. done.
  - intros Hm. rewrite Hm.
    destruct (Map_get urlId cache) as [entry|]; [|eauto].
    destruct (PrimFloat.ltb _ _); eauto.
Qed.

(** X10. A failed or late response loses nothing: when the request is rejected
    the history on screen and the cache stay as they are, one line goes to
    the console and the loading flag of a mounted component is cleared, so
    that a first load that fails shows "No data"; and when the component
    was unmounted in the meantime, neither its state nor the cache is
    written, whatever the response. *)
Theorem failed_or_late_response_changes_nothing
    (now : PrimFloat.float) (urlId : value)
    (cache : healthHistoryCache) (c : component) :
  (∀ e,
     let '(cache', c', lines) := loadHistory_finish now urlId (Abrupt e) cache c in
     cache' = cache ∧ history c' = history c ∧ isMounted c' = isMounted c
     ∧ loading c' = (if isMounted c then false else loading c)
     ∧ lines = [("Error loading health history:", e)])
  ∧ (∀ e, match loadHistory_start now urlId [] mount with
          | Awaiting c1 =>
              show (loadHistory_finish now urlId (Abrupt e) [] c1).1.2 = NoData
          | Returned _ => False
          end)
  ∧ (isMounted c = false →
     ∀ response, (loadHistory_finish now urlId response cache c).1 = (cache, c)).
Proof.
  split; [|split].
  - intros e. unfold loadHistory_finish. by destruct (isMounted c) eqn:E.
  - intros e. done.
  - intros Hm response. unfold loadHistory_finish. rewrite Hm. by destruct response.
Qed.

(** X11. The dots of the timeline: a non-empty history that is not loading is
    drawn with one dot for each of its first ten checks and no more, in
    reverse order, while the uptime counts run over the whole history. *)
Theorem timeline_has_at_most_ten_dots (rows : list obj) :
  rows ≠ [] →
  ∃ dots pct online,
    render false rows = Timeline dots pct online (length rows)
    ∧ length dots = Nat.min 10 (length rows)
    ∧ (∀ i, i < length dots → dots !! i = rows !! (length dots - 1 - i)).
Proof.
  intros Hne. unfold render.
  destruct (Nat.eqb_spec (length rows) 0) as [H0|_];
    [by apply length_zero_iff_nil in H0|].
  eexists _, _, _. split; [reflexivity|].
  assert (Hlen : length (reverse (take 10 rows)) = Nat.min 10 (length rows))
    by (rewrite length_reverse, length_take; lia).
  split; [done|]. intros i Hi. rewrite Hlen in *.
  rewrite reverse_lookup by (rewrite length_take; lia).
  rewrite length_take. rewrite lookup_take_lt by lia. f_equal. lia.
Qed.

Lemma timeline_has_at_most_ten_dots_witness :
  ∃ dots pct online,
    render false (replicate 12 ({[ "status" := VStr "online" ]} : obj))
    = Timeline dots pct online 12
    ∧ length dots = 10.
Proof.
  destruct (timeline_has_at_most_ten_dots
              (replicate 12 ({[ "status" := VStr "online" ]} : obj)))
    as (dots & pct & online & Hr & Hlen & _); [discriminate|].
  exists dots, pct, online. split; [exact Hr|exact Hlen].
Defined.

End HealthTimelineLoaderFacts.
Module WebSocketLifecycleFacts.
Import Js WebSocketService WebSocketLifecycle WebSocketFacts.

Section LifecycleFacts.
Context {U : Type}.
Variable call : behaviour U.
Variable JSON_parse : string → completion message.
Variable JSON_stringify : message → string.

Local Abbreviation step := (step call JSON_parse JSON_stringify).
Local Abbreviation run := (run call JSON_parse JSON_stringify).
Local Abbreviation onmessage := (onmessage call JSON_parse).

(** X12. A frame that is not JSON stops at the socket handler: [onmessage]
    always returns normally; when the text does not parse, no listener is
    called, the service and the application state are untouched and the
    parse error is the one new console line; when it parses, every
    listener is called once with the parsed frame, in subscription order. *)
Theorem onmessage_contains_bad_frames (text : string) (m : machine U) :
  ∃ m', onmessage text m = (m', Normal tt)
        ∧ match JSON_parse text with
          | Abrupt e =>
              calls m' = calls m
              ∧ service (mworld m') = service (mworld m)
              ∧ app (mworld m') = app (mworld m)
              ∧ console (mworld m')
                = console (mworld m) ++ [("Error parsing WebSocket message:", e)]
          | Normal data =>
              calls m' = calls m ++ map (λ callback, (callback, data))
                                        (listeners (service (mworld m)))
          end.
Proof.
  unfold onmessage, try_catch. destruct (JSON_parse text) as [data|e].
  - unfold notifyListeners.
    destruct (notify_loop_calls call data (listeners (service (mworld m))) m)
      as (m' & -> & Hcalls).
    by exists m'.
  - eexists. split; [reflexivity|]. done.
Qed.

(** *** What the listeners cannot change *)

Lemma notify_loop_keeps (P : world U → Prop) (data : message)
    (snapshot : list ref) (m : machine U) :
  (∀ callback w, P w → P (call callback data w).1) →
  (∀ w line, P w → P (World (service w) (console w ++ [line]) (app w))) →
  P (mworld m) →
  P (mworld (forEach
               (λ callback,
                  try_catch (invoke call callback data)
                            (λ error, console_error "Error in WebSocket listener:" error))
               snapshot m).1).
Proof.
  intros Hcall Hlog. revert m. induction snapshot as [|cb rest IH]; intros m Hm; [done|].
  simpl. unfold try_catch at 1, invoke at 1.
  pose proof (Hcall cb (mworld m) Hm) as Hcb.
  destruct (call cb data (mworld m)) as [w' [[]|e]]; simpl in *.
  - by apply IH.
  - apply IH. simpl. by apply Hlog.
Qed.

Lemma onmessage_keeps_connection (text : string) (m : machine U) :
  keeps_connection call →
  let s' := service (mworld (onmessage text m).1) in
  ws s' = ws (service (mworld m))
  ∧ reconnectTimer s' = reconnectTimer (service (mworld m))
  ∧ reconnectInterval s' = reconnectInterval (service (mworld m)).
Proof.
  intros Hkeep. unfold onmessage, try_catch.
  destruct (JSON_parse text) as [data|e]; [|done].
  set (P := λ w : world U,
         ws (service w) = ws (service (mworld m))
         ∧ reconnectTimer (service w) = reconnectTimer (service (mworld m))
         ∧ reconnectInterval (service w) = reconnectInterval (service (mworld m))).
  assert (HP : P (mworld (notifyListeners call data m).1)).
  { unfold notifyListeners.
    apply (notify_loop_keeps P data (listeners (service (mworld m))) m); [| |done].
    - intros cb w (H1 & H2 & H3). destruct (Hkeep cb data w) as (K1 & K2 & K3).
      unfold P. by rewrite K1, K2, K3.
    - by intros w line. }
  destruct (notifyListeners call data m) as [m' [[]|e]]; exact HP.
Qed.

(** *** The pending timers *)

Lemma reconnect_tracked (p : page U) : timers_tracked p → timers_tracked (reconnect p).
Proof.
  intros (Hfresh & Hint & Htimers). unfold reconnect.
  destruct (timer_set (reconnectTimer (this p))) eqn:Hset; [done|].
  unfold timers_tracked; simpl. split; [lia|]. split; [done|].
  intros id delay. destruct (decide (fresh (env p) = id)) as [<-|Hne].
  - rewrite lookup_insert_eq. intros [= <-]. done.
  - rewrite lookup_insert_ne by done. intros Hold.
    destruct (Htimers _ _ Hold) as (Ht & Hpos & _). exfalso.
    unfold this in Hset, Ht. rewrite Ht in Hset. simpl in Hset.
    destruct id; [lia|done].
Qed.

(** Taking the recorded timer out leaves no timer pending. *)
Lemma delete_tracked (p : page U) (id : nat) :
  timers_tracked p → reconnectTimer (this p) = Some id →
  delete id (timers (env p)) = ∅.
Proof.
  intros (_ & _ & Htimers) Hid. apply map_empty. intros k.
  destruct (decide (id = k)) as [<-|Hne]; [by rewrite lookup_delete_eq|].
  rewrite lookup_delete_ne by done.
  destruct (timers (env p) !! k) as [delay|] eqn:Hk; [|done].
  destruct (Htimers _ _ Hk) as (Ht & _). congruence.
Qed.

Lemma clear_tracked (p : page U) :
  timers_tracked p →
  timers_tracked
    match reconnectTimer (this p) with
    | Some id =>
        if timer_set (Some id)
        then assign (set_reconnectTimer None) (clearTimeout id p)
        else p
    | None => p
    end.
Proof.
  intros Hp. destruct (reconnectTimer (this p)) as [id|] eqn:Hid; [|done].
  destruct (timer_set (Some id)); [|done].
  pose proof (delete_tracked p id Hp Hid) as Hempty.
  destruct Hp as (Hfresh & Hint & _).
  unfold timers_tracked; simpl. split; [done|]. split; [done|].
  intros k delay. rewrite Hempty. by rewrite lookup_empty.
Qed.

Lemma connect_tracked (p : page U) : timers_tracked p → timers_tracked (connect p).
Proof.
  intros Hp. unfold connect.
  destruct (rejects (env p) (socket_url (env p))) as [e|].
  - apply reconnect_tracked. exact Hp.
  - destruct Hp as (Hfresh & Hint & Htimers).
    unfold timers_tracked; simpl. split; [lia|]. split; [done|]. exact Htimers.
Qed.

Lemma step_tracked (e : event) (p p' : page U) :
  keeps_connection call → timers_tracked p → step e p = Some p' → timers_tracked p'.
Proof.
  intros Hkeep Hp. destruct e as [| |data|cb|u|id|id text|id err|id|id]; simpl.
  - intros [= <-]. by apply connect_tracked.
  - intros [= <-]. unfold disconnect.
    pose proof (clear_tracked p Hp) as Hc.
    destruct (match reconnectTimer (this p) with Some _ => _ | None => _ end) as [m b] eqn:E.
    destruct (ws (this (Page m b))); [|done].
    destruct Hc as (Hfresh & Hint & Htimers).
    unfold timers_tracked; simpl. split; [done|]. split; [done|]. exact Htimers.
  - intros [= <-]. unfold send.
    destruct (ws (this p)) as [id|]; [|done].
    destruct (sockets (env p) !! id) as [[url []]|]; done.
  - intros [= <-]. exact Hp.
  - intros [= <-]. destruct u. exact Hp.
  - destruct (state_of id (env p)) as [[]|]; try done. intros [= <-].
    unfold onopen. apply (clear_tracked (console_log "WebSocket connected"
                                            (browse (set_state id OPEN) p))).
    exact Hp.
  - destruct (state_of id (env p)) as [[]|]; try done. intros [= <-].
    destruct (onmessage_keeps_connection text (runtime p) Hkeep) as (_ & Ht & Hi).
    destruct Hp as (Hfresh & Hint & Htimers).
    unfold timers_tracked, this in *; simpl in *. rewrite Ht, Hi. done.
  - destruct (state_of id (env p)) as [[]|]; try done; intros [= <-]; exact Hp.
  - destruct (state_of id (env p)) as [[]|]; try done; intros [= <-];
      unfold onclose; apply reconnect_tracked; exact Hp.
  - destruct (timers (env p) !! id) as [delay|] eqn:Hid; [|done]. intros [= <-].
    unfold retry. apply connect_tracked.
    destruct Hp as (Hfresh & Hint & Htimers).
    unfold timers_tracked; simpl. split; [done|]. split; [done|].
    intros k d. destruct (decide (id = k)) as [<-|Hne]; [by rewrite lookup_delete_eq|].
    rewrite lookup_delete_ne by done. apply Htimers.
Qed.

Lemma run_tracked (events : list event) (p p' : page U) :
  keeps_connection call → timers_tracked p → run events p = Some p' → timers_tracked p'.
Proof.
  intros Hkeep. revert p. induction events as [|e events IH]; intros p Hp; simpl.
  - by intros [= <-].
  - destruct (step e p) as [p1|] eqn:Hstep; simpl; [|done].
    apply IH. by eapply step_tracked.
Qed.

(** X13. At most one retry is ever pending: on a page whose listeners leave the
    connection fields alone, after any run of calls and browser events
    from the load, there is at most one pending timer, it is the one
    [this.reconnectTimer] holds, and it was set for 5000 ms. *)
Theorem at_most_one_retry_pending
    (url : option string) (verdict : string → option error) (u : U)
    (events : list event) (p : page U) :
  keeps_connection call →
  run events (loaded url verdict u) = Some p →
  size (timers (env p)) ≤ 1
  ∧ ∀ id delay, timers (env p) !! id = Some delay →
                reconnectTimer (this p) = Some id ∧ delay = 5000%Z.
Proof.
  intros Hkeep Hrun.
  assert (Hp : timers_tracked p).
  { eapply run_tracked; [done| |done].
    unfold timers_tracked; simpl. split; [lia|]. split; [done|].
    intros id delay. by rewrite lookup_empty. }
  destruct Hp as (_ & _ & Htimers). split.
  - destruct (reconnectTimer (this p)) as [t|] eqn:Ht.
    + assert (timers (env p) ⊆ {[t := 5000%Z]}) as Hsub.
      { apply map_subseteq_spec. intros id delay Hid.
        destruct (Htimers _ _ Hid) as ([= ->] & _ & ->). apply lookup_singleton_eq. }
      apply map_subseteq_size in Hsub. by rewrite map_size_singleton in Hsub.
    + assert (timers (env p) = ∅) as ->; [|rewrite map_size_empty; lia].
      apply map_empty. intros id. destruct (timers (env p) !! id) eqn:Hid; [|done].
      by destruct (Htimers _ _ Hid).
  - intros id delay Hid. by destruct (Htimers _ _ Hid) as (? & _ & ?).
Qed.

End LifecycleFacts.
End WebSocketLifecycleFacts.

Module WebSocketScenariosFacts.
Import Js WebSocketService WebSocketLifecycle WebSocketScenarios WebSocketFacts WebSocketLifecycleFacts.

Section Retry.
Context {U : Type}.
Variable call : behaviour U.
Variable JSON_parse : string → completion message.
Variable JSON_stringify : message → string.

Local Abbreviation step := (step call JSON_parse JSON_stringify).
Local Abbreviation run := (run call JSON_parse JSON_stringify).

Lemma passive_step_stalled (e : event) (p p' : page U) :
  keeps_connection call → stalled p → passive e = true → step e p = Some p' →
  stalled p' ∧ fresh (env p') = fresh (env p).
Proof.
  intros Hkeep [Hempty Hset]. destruct e as [| |data|cb|u|id|id text|id err|id|id];
    simpl; try done; intros _.
  - destruct (state_of id (env p)) as [[]|]; try done. intros [= <-].
    destruct (onmessage_keeps_connection call JSON_parse text (runtime p) Hkeep)
      as (_ & Ht & _).
    unfold stalled, this in *; simpl in *. by rewrite Ht.
  - destruct (state_of id (env p)) as [[]|]; try done; intros [= <-]; done.
  - assert (Hre : ∀ q : page U,
              timer_set (reconnectTimer (this q)) = true → reconnect q = q)
      by (intros q Hq; unfold reconnect; by rewrite Hq).
    destruct (state_of id (env p)) as [[]|]; try done; intros [= <-];
      unfold onclose; rewrite Hre by exact Hset; done.
  - by rewrite Hempty, lookup_empty.
Qed.

Lemma passive_run_stalled (events : list event) (p p' : page U) :
  keeps_connection call → stalled p → forallb passive events = true →
  run events p = Some p' →
  stalled p' ∧ fresh (env p') = fresh (env p).
Proof.
  intros Hkeep. revert p. induction events as [|e events IH]; intros p Hp; simpl.
  - by intros _ [= <-].
  - intros [He Hrest]%andb_true_iff.
    destruct (step e p) as [p1|] eqn:Hstep; simpl; [|done]. intros Hrun.
    destruct (passive_step_stalled e p p1 Hkeep Hp He Hstep) as [Hp1 Hf1].
    destruct (IH p1 Hp1 Hrest Hrun) as [Hp' Hf']. split; [done|congruence].
Qed.

(** The close of a socket on a page with no timer recorded, followed by the
    firing of the timer it schedules. *)
Lemma close_then_retry (q : page U) (id : nat) (st : readyState) :
  state_of id (env q) = Some st → st ≠ CLOSED →
  timer_set (reconnectTimer (this q)) = false →
  rejects (env q) (socket_url (env q)) = None →
  ∃ p',
    run [Closed id; Fired (fresh (env q))] q = Some p'
    ∧ ws (this p') = Some (S (fresh (env q)))
    ∧ state_of (S (fresh (env q))) (env p') = Some CONNECTING
    ∧ fresh (env p') = S (S (fresh (env q)))
    ∧ timers (env p') = delete (fresh (env q)) (timers (env q))
    ∧ reconnectTimer (this p') = Some (fresh (env q)).
Proof.
  intros Hstate Hopen Hset Haccept.
  destruct q as [[[svc con u] cs] b]. unfold this in *; simpl in *.
  rewrite Hstate.
  assert (Hgo : ∀ X : option (page U),
            match st with CLOSED => None | _ => X end = X) by by destruct st.
  rewrite Hgo. clear Hgo. simpl.
  unfold onclose, reconnect, this; simpl. rewrite Hset. simpl.
  rewrite lookup_insert_eq. simpl.
  unfold retry, connect, socket_url in *; simpl. rewrite Haccept. simpl.
  eexists. split; [reflexivity|]. simpl.
  split; [done|]. split; [|split; [done|split; [|done]]].
  - unfold state_of; simpl. by rewrite lookup_insert_eq.
  - by rewrite delete_insert_eq.
Qed.

(** X14. Reconnection is tried once: when the open socket of a page with no
    retry pending closes, one retry is scheduled, and when it fires a new
    socket is made; from then on, as long as no socket opens and the
    application calls nothing, whatever the browser delivers (the new
    socket's error and close included) makes no further socket and no
    further timer: [this.reconnectTimer] still holds the id of the timer
    that fired, and [reconnect] takes it for a pending one. *)
Theorem reconnection_is_tried_once (p : page U) (id : nat) :
  keeps_connection call →
  state_of id (env p) = Some OPEN →
  timers (env p) = ∅ →
  timer_set (reconnectTimer (this p)) = false →
  0 < fresh (env p) →
  rejects (env p) (socket_url (env p)) = None →
  ∃ p1,
    run [Closed id; Fired (fresh (env p))] p = Some p1
    ∧ ws (this p1) = Some (S (fresh (env p)))
    ∧ state_of (S (fresh (env p))) (env p1) = Some CONNECTING
    ∧ fresh (env p1) = S (S (fresh (env p)))
    ∧ ∀ events p2,
        forallb passive events = true → run events p1 = Some p2 →
        fresh (env p2) = fresh (env p1) ∧ timers (env p2) = ∅.
Proof.
  intros Hkeep Hstate Hempty Hset Hfresh Haccept.
  destruct (close_then_retry p id OPEN Hstate) as (p1 & Hrun & Hws & Hnew & Hf & Ht & Hr);
    [done..|].
  exists p1. split; [done|]. split; [done|]. split; [done|]. split; [done|].
  intros events p2 Hpassive Hrun2.
  eapply passive_run_stalled in Hrun2 as [[Ht2 _] Hf2]; [by split|done| |done].
  split.
  - rewrite Ht, Hempty. apply map_empty. intros k. by rewrite lookup_delete, lookup_empty;
      destruct (decide _).
  - rewrite Hr. by destruct (fresh (env p)); [lia|].
Qed.

(** X15. [disconnect] does not end the reconnection: on a page whose current
    socket is open, [disconnect()] clears the timer and drops the socket,
    but the close event that follows schedules a retry like any other
    close, and when that timer fires [connect] runs again and a new socket
    becomes [this.ws]. *)
Theorem disconnect_is_followed_by_a_retry (p : page U) (id : nat) :
  ws (this p) = Some id →
  state_of id (env p) = Some OPEN →
  rejects (env p) (socket_url (env p)) = None →
  ∃ p0 p',
    step Disconnect p = Some p0
    ∧ ws (this p0) = None
    ∧ timer_set (reconnectTimer (this p0)) = false
    ∧ state_of id (env p0) = Some CLOSING
    ∧ run [Closed id; Fired (fresh (env p))] p0 = Some p'
    ∧ ws (this p') = Some (S (fresh (env p)))
    ∧ state_of (S (fresh (env p))) (env p') = Some CONNECTING.
Proof.
  intros Hws Hstate Haccept.
  assert (Hsock : ∃ url, sockets (env p) !! id = Some (url, OPEN)).
  { unfold state_of in Hstate. destruct (sockets (env p) !! id) as [[url st]|]; [|done].
    simpl in Hstate. injection Hstate as ->. by exists url. }
  destruct Hsock as [url Hsock].
  set (cleared := match reconnectTimer (this p) with
                  | Some t =>
                      if timer_set (Some t)
                      then assign (set_reconnectTimer None) (clearTimeout t p)
                      else p
                  | None => p
                  end).
  assert (Hc : ws (this cleared) = Some id
               ∧ timer_set (reconnectTimer (this cleared)) = false
               ∧ sockets (env cleared) = sockets (env p)
               ∧ fresh (env cleared) = fresh (env p)
               ∧ rejects (env cleared) = rejects (env p)
               ∧ REACT_APP_WS_URL (env cleared) = REACT_APP_WS_URL (env p)).
  { subst cleared. destruct (reconnectTimer (this p)) as [[|t]|] eqn:Ht; simpl.
    - by rewrite Ht.
    - done.
    - by rewrite Ht. }
  destruct Hc as (Hws' & Hset' & Hsocks' & Hfresh' & Hrej' & Hurl').
  set (q := assign (set_ws None) (browse (close_socket id) cleared)).
  assert (Hd : disconnect p = q).
  { unfold disconnect. fold cleared. by rewrite Hws'. }
  assert (Hclosing : state_of id (env q) = Some CLOSING).
  { subst q. unfold state_of, close_socket; simpl. rewrite Hsocks', Hsock. simpl.
    by rewrite lookup_insert_eq. }
  assert (Hfq : fresh (env q) = fresh (env p)) by (subst q; simpl; done).
  destruct (close_then_retry q id CLOSING Hclosing) as (p' & Hrun & Hw & Hnew & _);
    [done|exact Hset'| |].
  { subst q. unfold socket_url in *. simpl. by rewrite Hurl', Hrej'. }
  exists q, p'. rewrite Hfq in *.
  split; [simpl; by rewrite Hd|]. split; [done|]. split; [exact Hset'|]. done.
Qed.

(** X16. [send] needs an open socket: a frame is handed to the current socket
    when that socket is open, and in every other case (no socket, a socket
    still connecting, closing or closed) the call changes nothing: the
    frame is dropped, not queued.  So nothing is sent by a [send] that
    follows [connect] at once, nor by one that follows [disconnect]. *)
Theorem send_needs_an_open_socket (data : message) (p : page U) :
  (∀ id, ws (this p) = Some id → state_of id (env p) = Some OPEN →
         transmitted (env (send JSON_stringify data p))
         = transmitted (env p) ++ [(id, JSON_stringify data)])
  ∧ ((∀ id, ws (this p) = Some id → state_of id (env p) ≠ Some OPEN) →
     send JSON_stringify data p = p)
  ∧ (rejects (env p) (socket_url (env p)) = None →
     send JSON_stringify data (connect p) = connect p)
  ∧ send JSON_stringify data (disconnect p) = disconnect p.
Proof.
  assert (Hdrop : ∀ q : page U,
            (∀ id, ws (this q) = Some id → state_of id (env q) ≠ Some OPEN) →
            send JSON_stringify data q = q).
  { intros q Hq. unfold send. destruct (ws (this q)) as [id|] eqn:Hws; [|done].
    specialize (Hq id eq_refl). unfold state_of in Hq.
    destruct (sockets (env q) !! id) as [[url []]|]; try done. }
  split; [|split; [exact (Hdrop p)|split]].
  - intros id Hws Hstate. unfold send. rewrite Hws. unfold state_of in Hstate.
    destruct (sockets (env p) !! id) as [[url []]|]; try done.
  - intros Haccept. apply Hdrop. intros id. unfold connect. rewrite Haccept.
    destruct p as [[[svc con u] cs] b]. unfold this, state_of; simpl.
    intros [= <-]. by rewrite lookup_insert_eq.
  - apply Hdrop. intros id. unfold disconnect.
    destruct (match reconnectTimer (this p) with Some _ => _ | None => _ end)
      as [[[svc con u] cs] b] eqn:E.
    unfold this; simpl. destruct (ws svc) eqn:Hws; simpl; [done|].
    by rewrite Hws.
Qed.

End Retry.

Lemma failing_and_counting_keeps_connection : keeps_connection failing_and_counting.
Proof.
  intros callback data w. unfold failing_and_counting.
  by destruct (decide (callback = 0)).
Qed.

(** A page that connects, receives a frame and loses its socket has one
    retry pending. *)
Lemma at_most_one_retry_pending_witness :
  ∃ p, run failing_and_counting ping_parser show_type
           [Connect; Opened 1; Subscribed 0; Received 1 "ping"; Closed 1]
           (loaded None (λ _, None) 0) = Some p
       ∧ size (timers (env p)) ≤ 1.
Proof.
  eexists. split; [vm_compute; reflexivity|].
  refine (proj1 (at_most_one_retry_pending failing_and_counting ping_parser show_type
                   None (λ _, None) 0
                   [Connect; Opened 1; Subscribed 0; Received 1 "ping"; Closed 1]
                   _ failing_and_counting_keeps_connection _)).
  vm_compute. reflexivity.
Defined.

(** The open socket 1 closes, timer 2 fires and makes socket 3. *)
Lemma reconnection_is_tried_once_witness :
  ∃ p1, run failing_and_counting ping_parser show_type [Closed 1; Fired 2] connected
        = Some p1
        ∧ ws (this p1) = Some 3.
Proof.
  destruct (reconnection_is_tried_once failing_and_counting ping_parser show_type
              connected 1 failing_and_counting_keeps_connection)
    as (p1 & Hrun & Hws & _).
  - reflexivity.
  - reflexivity.
  - reflexivity.
  - simpl. lia.
  - reflexivity.
  - exists p1. split; [exact Hrun|exact Hws].
Defined.

(** [disconnect()] on the connected page, then the close event and timer 2:
    socket 3 is made. *)
Lemma disconnect_is_followed_by_a_retry_witness :
  ∃ p0 p',
    step failing_and_counting ping_parser show_type Disconnect connected = Some p0
    ∧ run failing_and_counting ping_parser show_type [Closed 1; Fired 2] p0 = Some p'
    ∧ ws (this p') = Some 3.
Proof.
  destruct (disconnect_is_followed_by_a_retry failing_and_counting ping_parser show_type
              connected 1)
    as (p0 & p' & Hstep & _ & _ & _ & Hrun & Hws & _).
  - reflexivity.
  - reflexivity.
  - reflexivity.
  - exists p0, p'. split; [exact Hstep|]. split; [exact Hrun|exact Hws].
Defined.

(** After the one retry nothing brings the connection back: the new socket
    fails and closes, and the page is left with no socket alive and no
    timer. *)
Example retry_is_not_repeated :
  ∃ p, run failing_and_counting ping_parser show_type
           [Closed 1; Fired 2; Errored 3 (Thrown VNull); Closed 3] connected = Some p
       ∧ timers (env p) = ∅
       ∧ state_of 1 (env p) = Some CLOSED ∧ state_of 3 (env p) = Some CLOSED
       ∧ reconnectTimer (this p) = Some 2.
Proof. eexists. split; [vm_compute; reflexivity|]. repeat split. Qed.

End WebSocketScenariosFacts.

Module AppLoadersFacts.
Import Js App AppLoaders.

(** X17. A failed load loses nothing, and each loader writes its own part only:
    when its request is rejected, a loader leaves the URLs, the servers,
    the health statuses and the time of the last update as they were,
    raises no alert and logs the error ([loadUrls] also ends with the
    loading flag off); and whatever the response, [loadUrls] never changes
    the servers or the health statuses, [loadHealthStatuses] never the
    URLs, the servers or the loading flag, and [loadServers] never the
    URLs, the health statuses or the loading flag. *)
Theorem loaders_keep_what_they_do_not_load
    (now : value) (response : completion (list obj)) (prev : healthcheckCache) :
  let after_urls := apply_updates (loadUrls now response) prev in
  let after_health := apply_updates (loadHealthStatuses now response) prev in
  let after_servers := apply_updates (loadServers now response) prev in
  (∀ e, response = Abrupt e →
        after_urls = set_isLoading false prev
        ∧ after_health = prev ∧ after_servers = prev
        ∧ alerts (loadUrls now response) = []
        ∧ alerts (loadHealthStatuses now response) = []
        ∧ alerts (loadServers now response) = []
        ∧ ConsoleError "Error loading URLs:" e ∈ loadUrls now response
        ∧ ConsoleError "Error loading health statuses:" e ∈ loadHealthStatuses now response
        ∧ ConsoleError "Error loading servers:" e ∈ loadServers now response)
  ∧ (servers after_urls = servers prev ∧ healthStatuses after_urls = healthStatuses prev
     ∧ isLoading after_urls = VBool false)
  ∧ (urls after_health = urls prev ∧ servers after_health = servers prev
     ∧ isLoading after_health = isLoading prev)
  ∧ (urls after_servers = urls prev ∧ healthStatuses after_servers = healthStatuses prev
     ∧ isLoading after_servers = isLoading prev).
Proof.
  intros after_urls after_health after_servers.
  subst after_urls after_health after_servers.
  split.
  - intros e ->. simpl. split; [done|]. do 5 (split; [done|]). split; [|split].
    + apply list_elem_of_further, list_elem_of_further, list_elem_of_here.
    + apply list_elem_of_further, list_elem_of_here.
    + apply list_elem_of_further, list_elem_of_here.
  - destruct response; simpl; done.
Qed.

(** X18. Deleting a URL asks first and reports only the delete itself: without
    the confirmation nothing is requested and the cache is not written;
    with it, the delete request goes out first, and the URLs and the
    health statuses are reloaded, in this order, only when it was
    accepted; the alert is raised exactly when the delete request was
    rejected, in which case the cache is left as it was; a reload that
    fails after an accepted delete raises no alert. *)
Theorem handleDeleteUrl_asks_first
    (o : outcome) (urlId : value) (prev : healthcheckCache) :
  let effects := handleDeleteUrl o urlId in
  (confirmed o = false →
   effects = [Confirm "Are you sure you want to delete this URL?"]
   ∧ apply_updates effects prev = prev)
  ∧ (confirmed o = true →
     (∀ e, deleted o = Abrupt e →
           requests effects = [DeleteUrl urlId]
           ∧ alerts effects = ["Failed to delete URL"]
           ∧ apply_updates effects prev = prev)
     ∧ (∀ u, deleted o = Normal u →
             requests effects = [DeleteUrl urlId; GetAllUrls; GetAllLatestHealth]
             ∧ alerts effects = []))
  ∧ (alerts effects ≠ [] ↔ confirmed o = true ∧ ∃ e, deleted o = Abrupt e).
Proof.
  intros effects. subst effects. unfold handleDeleteUrl.
  destruct o as [c d [n1 r1] [n2 r2] s]; simpl.
  destruct c; simpl.
  - split; [done|]. split.
    + intros _. split.
      * intros e ->. done.
      * intros u ->. simpl. by destruct r1, r2.
    + destruct d as [u|e]; simpl.
      * split; [|by intros [_ [e ?]]]. by destruct r1, r2.
      * split; [eauto|done].
  - split; [done|]. split; [done|]. split; [done|]. by intros [? _].
Qed.

End AppLoadersFacts.
